(** * Useful-links search of the campus guide: the search routine of
    [links.js] and the social-media helpers of [DisplayUtils.js].

    Strings are [string] (one [ascii] per code unit); the case mappings of
    JavaScript are modelled on the ASCII letters, every other code unit is
    left as it is.  What is proved of the way the code treats case is
    stated through [toUpperCase] and [toLowerCase] themselves, and so does
    not rest on what the mappings do outside the ASCII letters.  An object
    used as a map is the [gmap] of its own properties; the property name
    '__proto__' is not one of them. *)

From Stdlib Require Import ZArith Ascii.
From stdpp Require Import base list strings gmap.

(** ** The string primitives the code calls *)

Module JsString.

Definition is_upper (c : ascii) : bool :=
  ((65 <=? Z.of_nat (nat_of_ascii c)) && (Z.of_nat (nat_of_ascii c) <=? 90))%Z.

Definition is_lower (c : ascii) : bool :=
  ((97 <=? Z.of_nat (nat_of_ascii c)) && (Z.of_nat (nat_of_ascii c) <=? 122))%Z.

Definition upper_char (c : ascii) : ascii :=
  if is_lower c then ascii_of_nat (nat_of_ascii c - 32) else c.

Definition lower_char (c : ascii) : ascii :=
  if is_upper c then ascii_of_nat (nat_of_ascii c + 32) else c.

Fixpoint map_chars (f : ascii → ascii) (s : string) : string :=
  match s with
  | EmptyString => EmptyString
  | String c s' => String (f c) (map_chars f s')
  end.

(** [s.toUpperCase()] and [s.toLowerCase()]. *)
Definition toUpperCase (s : string) : string := map_chars upper_char s.
Definition toLowerCase (s : string) : string := map_chars lower_char s.

(** [t] starts [s]. *)
Fixpoint starts_with (t s : string) : bool :=
  match t, s with
  | EmptyString, _ => true
  | String a t', String b s' => if decide (a = b) then starts_with t' s' else false
  | String _ _, EmptyString => false
  end.

(** [s.indexOf(t)] counted from position [k]: the first position at which
    [t] occurs in [s], or [-1]. *)
Fixpoint indexOf_from (k : Z) (s t : string) : Z :=
  if starts_with t s then k
  else match s with
       | EmptyString => (-1)%Z
       | String _ s' => indexOf_from (k + 1)%Z s' t
       end.

Definition indexOf (s t : string) : Z := indexOf_from 0%Z s t.

(** [t] occurs in [s]. *)
Definition substring_of (t s : string) : Prop :=
  ∃ pre post : string, s = pre +:+ t +:+ post.

(** Two strings that differ at most in the case of their ASCII letters. *)
Definition same_letter (a b : ascii) : bool :=
  bool_decide (a = b)
  || (is_upper a && bool_decide (nat_of_ascii b = (nat_of_ascii a + 32)%nat))
  || (is_lower a && bool_decide (nat_of_ascii a = (nat_of_ascii b + 32)%nat)).

Fixpoint eq_ignore_case (s t : string) : bool :=
  match s, t with
  | EmptyString, EmptyString => true
  | String a s', String b t' => same_letter a b && eq_ignore_case s' t'
  | _, _ => false
  end.

(** Every code unit of the model. *)
Definition all_ascii : list ascii := ascii_of_nat <$> seq 0 256.

End JsString.

(** ** Objects used as maps *)

Module JsObject.

(** [obj[key] = value] on an object made by [{}], of which the [gmap] holds
    the own properties.  The name '__proto__' is the accessor that every
    such object inherits: an assignment to it replaces the prototype of
    [obj] (by [value], which is an array or an object wherever the code
    assigns) and adds no property.  Every other name becomes, or stays, an
    own property bound to [value]. *)
Definition assign {V : Type} (key : string) (value : V) (obj : gmap string V)
    : gmap string V :=
  if decide (key = "__proto__") then obj else <[key := value]> obj.

End JsObject.

(** ** DisplayUtils.js *)

Module DisplayUtils.
Import JsString.

(** The [switch] on [socialMedia.toLowerCase()] of [getSocialMediaIconName]. *)
Definition getSocialMediaIconName (socialMedia : string) : string :=
  let key := toLowerCase socialMedia in
  if decide (key = "linkedin") then "social-linkedin"
  else if decide (key = "twitter") then "social-twitter"
  else if decide (key = "facebook") then "social-facebook"
  else if decide (key = "instagram") then "social-instagram-outline"
  else if decide (key = "youtube") then "social-youtube"
  else if decide (key = "tumblr") then "social-tumblr"
  else "android-open".

(** The [switch] on [socialMedia.toLowerCase()] of [getSocialMediaIconColor]. *)
Definition getSocialMediaIconColor (socialMedia : string) : string :=
  let key := toLowerCase socialMedia in
  if decide (key = "linkedin") then "#0077B5"
  else if decide (key = "twitter") then "#55ACEE"
  else if decide (key = "facebook") then "#3D509F"
  else if decide (key = "instagram") then "#241F20"
  else if decide (key = "youtube") then "#CD201F"
  else if decide (key = "tumblr") then "#35465C"
  else "#000000".

(** The six platforms the two helpers know, with the icon and the colour
    each one is given. *)
Definition known_platforms : list (string * (string * string)) :=
  [ ("linkedin", ("social-linkedin", "#0077B5"));
    ("twitter", ("social-twitter", "#55ACEE"));
    ("facebook", ("social-facebook", "#3D509F"));
    ("instagram", ("social-instagram-outline", "#241F20"));
    ("youtube", ("social-youtube", "#CD201F"));
    ("tumblr", ("social-tumblr", "#35465C")) ].

Definition fallback_icon : string := "android-open".
Definition fallback_color : string := "#000000".

End DisplayUtils.

(** ** links.js: the data the search works on *)

(** [Language] of [types]: the two languages the application offers. *)
Inductive Language := en | fr.

(** The entries of the translation table that the search reads. *)
Record Translations := {
  external_links : string;
  useful_links : string;
  see_related_links : string;
}.

(** [TranslationUtils], which is not part of the search itself: the
    functions the search calls on it.  [Name] stands for the name fields of
    a section or link, as [TranslationUtils] reads them; a missing
    translation ([null]) is [None]. *)
Class TranslationUtils (Name : Type) := {
  getTranslatedName : Language → Name → option string;
  getEnglishName : Name → option string;
  getTranslations : Language → Translations;
}.

Record IconObject := { icon_name : string; icon_class : string }.

Module Model.
Section Types.
Context {Name : Type}.

(** A link or social-media entry of a section. *)
Record Link := { link_name : Name; link_url : string }.

(** [LinkSection]: a node of the tree of [useful_links.json].  A key the
    JSON object does not have is [None]. *)
#[warnings="-register-all"] Inductive LinkSection := mkLinkSection {
  id : string;
  name : Name;
  icon : option IconObject;
  links : option (list Link);
  social : option (list Link);
  categories : option (list LinkSection);
}.

(** The payload of a result: the link itself, or the id of a section. *)
Inductive ResultData :=
| LinkData (link : Link)
| SectionId (section_id : string).

Record SearchResult := {
  description : string;
  data : ResultData;
  result_icon : option IconObject;
  matchedTerms : list string;
  title : string;
}.

(** *** The store

    The section objects of one parsed document form a forest; a reference
    to a section object is its path from the roots (the index of a root,
    then the index of a category at every level).  Reading through a
    reference is [get], writing a field through it is [update]: a write is
    seen through every reference to the object. *)

Definition subcategories (s : LinkSection) : list LinkSection :=
  default [] (categories s).

Fixpoint get_in (s : LinkSection) (p : list nat) : option LinkSection :=
  match p with
  | [] => Some s
  | j :: p' => subcategories s !! j ≫= λ c, get_in c p'
  end.

Definition get (store : list LinkSection) (p : list nat) : option LinkSection :=
  match p with
  | [] => None
  | j :: p' => store !! j ≫= λ s, get_in s p'
  end.

Fixpoint update_in (f : LinkSection → LinkSection) (p : list nat)
    (s : LinkSection) : LinkSection :=
  match p with
  | [] => f s
  | j :: p' =>
      mkLinkSection (id s) (name s) (icon s) (links s) (social s)
        (alter (update_in f p') j <$> categories s)
  end.

Definition update (f : LinkSection → LinkSection) (store : list LinkSection)
    (p : list nat) : list LinkSection :=
  match p with
  | [] => store
  | j :: p' => alter (update_in f p') j store
  end.

(** [section.id = v]. *)
Definition set_id (v : string) (s : LinkSection) : LinkSection :=
  mkLinkSection v (name s) (icon s) (links s) (social s) (categories s).

(** Number of section objects below and including [s]. *)
Fixpoint section_size (s : LinkSection) : nat :=
  match s with
  | mkLinkSection _ _ _ _ _ cs =>
      S (match cs with
         | Some l => foldr (λ c n, section_size c + n) 0 l
         | None => 0
         end)
  end.

Definition forest_size (store : list LinkSection) : nat :=
  foldr (λ c n, section_size c + n) 0 store.

(** The references to the objects of an array of [n] sections held by the
    object at [p] (by the document itself when [p] is empty). *)
Definition refs_below (p : list nat) (n : nat) : list (list nat) :=
  (λ j, p ++ [j]) <$> seq 0 n.

End Types.

Arguments Link : clear implicits.
Arguments LinkSection : clear implicits.
Arguments ResultData : clear implicits.
Arguments SearchResult : clear implicits.

End Model.
Export Model.

(** ** links.js: the search *)

Section Search.
Context {Name : Type} `{TU : !TranslationUtils Name}.
Import JsString.

Implicit Types (store : list (LinkSection Name)) (p : list nat).

(** What one run of the loop of [_getResults] leaves behind: the section
    objects as the loop left them, the final [sectionsToSearch], and the
    two arrays of results. *)
Record Run := {
  run_store : list (LinkSection Name);
  run_sectionsToSearch : list (list nat);
  run_links : list (SearchResult Name);
  run_categories : list (SearchResult Name);
}.

(** The closure [pushLink]; [links.push] appends to the array. *)
Definition pushLink (links : list (SearchResult Name))
    (sectionName linkName iconName : string) (link : Link Name)
    (matchedSectionName : bool) : list (SearchResult Name) :=
  links ++
  [ {| description := sectionName;
       data := LinkData link;
       result_icon := Some {| icon_name := iconName; icon_class := "ionicon" |};
       matchedTerms :=
         if matchedSectionName
         then [toUpperCase sectionName; toUpperCase linkName]
         else [toUpperCase linkName];
       title := linkName |} ].

(** [getTranslatedName(language, obj) || '']. *)
Definition translated_or_empty (language : Language) (n : Name) : string :=
  default "" (getTranslatedName language n).

(** [name.toUpperCase().indexOf(searchTerms) >= 0]. *)
Definition name_matches (searchTerms name : string) : bool :=
  (0 <=? indexOf (toUpperCase name) searchTerms)%Z.

(** The part of the loop body that pushes results for [section]: the
    [if]/[else] on the section name with its loops over [section.links]
    and [section.social]. *)
Definition search_section (language : Language) (searchTerms : string)
    (section : LinkSection Name)
    (links categories : list (SearchResult Name))
    : list (SearchResult Name) * list (SearchResult Name) :=
  let sectionName := translated_or_empty language (name section) in
  if name_matches searchTerms sectionName then
    let categories :=
      categories ++
      [ {| description := see_related_links (getTranslations language);
           data := SectionId (id section);
           result_icon := icon section;
           matchedTerms := [toUpperCase sectionName];
           title := sectionName |} ] in
    let links :=
      match Model.links section with
      | Some ls =>
          foldl (λ links link,
                   let linkName := translated_or_empty language (link_name link) in
                   pushLink links sectionName linkName "md-open" link true)
                links ls
      | None => links
      end in
    let links :=
      match Model.social section with
      | Some ls =>
          foldl (λ links link,
                   let linkName := translated_or_empty language (link_name link) in
                   let iconName :=
                     DisplayUtils.getSocialMediaIconName
                       (default "" (getEnglishName (link_name link))) in
                   pushLink links sectionName linkName iconName link true)
                links ls
      | None => links
      end in
    (links, categories)
  else
    let links :=
      match Model.links section with
      | Some ls =>
          foldl (λ links link,
                   let linkName := translated_or_empty language (link_name link) in
                   if name_matches searchTerms linkName
                   then pushLink links sectionName linkName "md-open" link false
                   else links)
                links ls
      | None => links
      end in
    let links :=
      match Model.social section with
      | Some ls =>
          foldl (λ links link,
                   let linkName := translated_or_empty language (link_name link) in
                   if name_matches searchTerms linkName
                   then
                     let iconName :=
                       DisplayUtils.getSocialMediaIconName
                         (default "" (getEnglishName (link_name link))) in
                     pushLink links sectionName linkName iconName link false
                   else links)
                links ls
      | None => links
      end in
    (links, categories).

(** The loop over [section.categories] that rewrites the ids: for every
    [j], [section.categories[j].id] becomes
    [section.id + "-" + section.categories[j].id], both read from the
    store when the assignment runs. *)
Definition rewrite_ids store p (n : nat) : list (LinkSection Name) :=
  foldl (λ store j,
           match get store p, get store (p ++ [j]) with
           | Some section, Some sub =>
               update (set_id (id section +:+ "-" +:+ id sub)) store (p ++ [j])
           | _, _ => store
           end)
        store (seq 0 n).

(** The [for] loop over the growing [sectionsToSearch], one iteration per
    unit of [fuel].  [None] when the fuel runs out or a reference does not
    point to an object. *)
Fixpoint search_loop (fuel : nat) (language : Language) (searchTerms : string)
    store (sectionsToSearch : list (list nat)) (i : nat)
    (links categories : list (SearchResult Name)) : option Run :=
  match fuel with
  | O => None
  | S fuel =>
      match sectionsToSearch !! i with
      | None =>
          Some {| run_store := store;
                  run_sectionsToSearch := sectionsToSearch;
                  run_links := links;
                  run_categories := categories |}
      | Some p =>
          match get store p with
          | None => None
          | Some section =>
              let '(links, categories) :=
                search_section language searchTerms section links categories in
              match Model.categories section with
              | Some cs =>
                  search_loop fuel language searchTerms
                    (rewrite_ids store p (length cs))
                    (sectionsToSearch ++ refs_below p (length cs))
                    (S i) links categories
              | None =>
                  search_loop fuel language searchTerms
                    store sectionsToSearch (S i) links categories
              end
          end
      end
  end.

(** The loop of [_getResults] on [linkSections], with one iteration more
    than there are section objects. *)
Definition run_search (language : Language) (searchTerms : string)
    (linkSections : list (LinkSection Name)) : option Run :=
  search_loop (S (forest_size linkSections)) language searchTerms
    linkSections (refs_below [] (length linkSections)) 0 [] [].

(** The object [results]: two assignments into the empty object. *)
Definition build_results (language : Language)
    (links categories : list (SearchResult Name))
    : gmap string (list (SearchResult Name)) :=
  let Translations := getTranslations language in
  JsObject.assign (useful_links Translations) categories
    (JsObject.assign (external_links Translations) links ∅).

(** [_getResults]: the value its promise resolves with, next to the store
    as the loop left it. *)
Definition _getResults (language : Language) (searchTerms : string)
    (linkSections : list (LinkSection Name))
    : option (list (LinkSection Name) * gmap string (list (SearchResult Name))) :=
  run_search language searchTerms linkSections ≫= λ r,
    Some (run_store r, build_results language (run_links r) (run_categories r)).

(** *** getResults and the configuration

    [Configuration] is not part of the search: [config_init] and
    [config_getConfig] say how its two promises settle.  The calls made
    are recorded in order. *)

Context {Err : Type}.

Record Configuration := {
  config_init : Err + unit;
  config_getConfig : string → Err + list (LinkSection Name);
}.

Inductive Event :=
| InitCalled
| GetConfigCalled (file : string)
| ConsoleError (err : option Err).

(** How the promise of [getResults] settles.  The executor of
    [_getResults] would reject with what it threw; [None] stands for that
    error. *)
Inductive Outcome :=
| Resolved (results : gmap string (list (SearchResult Name)))
| Rejected (err : option Err).

Definition getResults (Config : Configuration) (language : Language)
    (searchTerms : option string) : list Event * Outcome :=
  match searchTerms with
  | None => ([], Resolved ∅)
  | Some searchTerms =>
      if decide (String.length searchTerms = 0) then ([], Resolved ∅)
      else
        let adjustedSearchTerms := toUpperCase searchTerms in
        match config_init Config with
        | inl err => ([InitCalled; ConsoleError (Some err)], Rejected (Some err))
        | inr _ =>
            match config_getConfig Config "/useful_links.json" with
            | inl err =>
                ([InitCalled; GetConfigCalled "/useful_links.json";
                  ConsoleError (Some err)],
                 Rejected (Some err))
            | inr linkSections =>
                match _getResults language adjustedSearchTerms linkSections with
                | Some (_, results) =>
                    ([InitCalled; GetConfigCalled "/useful_links.json"],
                     Resolved results)
                | None =>
                    ([InitCalled; GetConfigCalled "/useful_links.json";
                      ConsoleError None],
                     Rejected None)
                end
            end
        end
  end.

End Search.

Arguments Run : clear implicits.
Arguments Configuration : clear implicits.
Arguments Event : clear implicits.
Arguments Outcome : clear implicits.

(** ** What the search is expected to leave behind *)

Section Expected.
Context {Name : Type} `{TU : !TranslationUtils Name}.
Import JsString.

Implicit Types (store : list (LinkSection Name)) (p : list nat).

(** The id of the object at [p], and its other fields: name, icon, links,
    social entries and how many categories it has. *)
Definition id_at store p : option string := id <$> get store p.

Definition other_fields (s : LinkSection Name) :=
  (name s, icon s, links s, social s, length <$> categories s).

Definition other_fields_at store p := other_fields <$> get store p.

(** The references to the categories of the object at [p]. *)
Definition children_refs store p : list (list nat) :=
  match get store p with
  | Some s => refs_below p (length (subcategories s))
  | None => []
  end.

(** The ids of the ancestors of the object at [p] and its own id, from
    the root down, and their chain joined by dashes. *)
Definition ancestor_ids store p : list string :=
  omap (λ k, id_at store (take k p)) (seq 1 (length p)).

Definition chain_id store p : string :=
  String.concat "-" (ancestor_ids store p).

Definition size_at store p : nat :=
  from_option section_size 0 (get store p).

(** The record [pushLink] pushes. *)
Definition link_result (sectionName linkName iconName : string)
    (link : Link Name) (matchedSectionName : bool) : SearchResult Name :=
  {| description := sectionName;
     data := LinkData link;
     result_icon := Some {| icon_name := iconName; icon_class := "ionicon" |};
     matchedTerms :=
       if matchedSectionName
       then [toUpperCase sectionName; toUpperCase linkName]
       else [toUpperCase linkName];
     title := linkName |}.

Definition social_icon (link : Link Name) : string :=
  DisplayUtils.getSocialMediaIconName (default "" (getEnglishName (link_name link))).

(** The link results one section contributes. *)
Definition emitted_links (language : Language) (searchTerms : string)
    (section : LinkSection Name) : list (SearchResult Name) :=
  let sectionName := translated_or_empty language (name section) in
  let result (matched : bool) (iconOf : Link Name → string) (link : Link Name) :=
    link_result sectionName (translated_or_empty language (link_name link))
      (iconOf link) link matched in
  let own_match (link : Link Name) :=
    name_matches searchTerms (translated_or_empty language (link_name link)) = true in
  if name_matches searchTerms sectionName then
    (result true (λ _, "md-open") <$> default [] (links section))
    ++ (result true social_icon <$> default [] (social section))
  else
    (result false (λ _, "md-open") <$> filter own_match (default [] (links section)))
    ++ (result false social_icon <$> filter own_match (default [] (social section))).

(** The category result one section contributes, [section_id] being its
    id when the loop reaches it. *)
Definition emitted_category (language : Language) (searchTerms : string)
    (section_id : string) (section : LinkSection Name) : list (SearchResult Name) :=
  let sectionName := translated_or_empty language (name section) in
  if name_matches searchTerms sectionName then
    [ {| description := see_related_links (getTranslations language);
         data := SectionId section_id;
         result_icon := icon section;
         matchedTerms := [toUpperCase sectionName];
         title := sectionName |} ]
  else [].

Definition links_of (language : Language) (searchTerms : string) store p
    : list (SearchResult Name) :=
  from_option (emitted_links language searchTerms) [] (get store p).

Definition categories_of (language : Language) (searchTerms : string) store p
    : list (SearchResult Name) :=
  from_option (emitted_category language searchTerms (chain_id store p)) []
    (get store p).

(** Sizes of the sections still to be searched: the sections at the
    references from position [i] on. *)
Definition pending_size store (sectionsToSearch : list (list nat)) (i : nat) : nat :=
  sum_list_with (size_at store) (drop i sectionsToSearch).

(** What holds at the head of the loop of [_getResults] on the document
    [store0], when the sections at the first [i] references have been
    searched. *)
Record loop_invariant (language : Language) (searchTerms : string)
    (store0 store : list (LinkSection Name))
    (sectionsToSearch : list (list nat)) (i : nat)
    (links categories : list (SearchResult Name)) : Prop := {
  inv_other_fields : ∀ p, other_fields_at store p = other_fields_at store0 p;
  inv_id_listed : ∀ p,
    p ∈ sectionsToSearch → id_at store p = Some (chain_id store0 p);
  inv_id_unlisted : ∀ p,
    p ∉ sectionsToSearch → id_at store p = id_at store0 p;
  inv_list :
    sectionsToSearch
    = refs_below [] (length store0)
      ++ (take i sectionsToSearch ≫= children_refs store0);
  inv_nodup : NoDup sectionsToSearch;
  inv_valid : ∀ p, p ∈ sectionsToSearch → is_Some (get store0 p);
  inv_parent_first : ∀ k p j,
    sectionsToSearch !! k = Some (p ++ [j]) → p ≠ [] →
    p ∈ take k sectionsToSearch;
  inv_links :
    links = take i sectionsToSearch ≫= links_of language searchTerms store0;
  inv_categories :
    categories
    = take i sectionsToSearch ≫= categories_of language searchTerms store0;
}.

(** A result that owes its place to a term the query occurs in. *)
Definition has_matching_term (searchTerms : string) (r : SearchResult Name) : Prop :=
  ∃ t x, t ∈ matchedTerms r ∧ t = toUpperCase x ∧ substring_of searchTerms t.

End Expected.

(** ** A translation table and a document to run the search on *)

Module Sample.

(** Names are plain strings, the same in both languages. *)
#[export] Instance plain : TranslationUtils string := {|
  getTranslatedName _ n := Some n;
  getEnglishName n := Some n;
  getTranslations l :=
    match l with
    | en => {| external_links := "External links"; useful_links := "Useful links";
               see_related_links := "See related links" |}
    | fr => {| external_links := "Liens externes"; useful_links := "Liens utiles";
               see_related_links := "Voir les liens" |}
    end |}.

Definition leaf (i n : string) (ls : option (list (Link string))) : LinkSection string :=
  mkLinkSection i n None ls None None.

Definition wifi : list (LinkSection string) :=
  [ leaf "a" "" (Some [ {| link_name := "Wifi Help"; link_url := "w" |} ]) ].

Definition housing : list (LinkSection string) :=
  [ leaf "a" "Housing" (Some [ {| link_name := "Leases"; link_url := "l" |} ]) ].

Definition events : list (LinkSection string) :=
  [ mkLinkSection "events" "Events" None None None
      (Some [ mkLinkSection "academic" "Academic" None None None
                (Some [ leaf "deadlines" "Deadlines" None;
                        leaf "exams" "Exams" None ]);
              leaf "social" "Social" None ]);
    leaf "maps" "Maps" None ].


(** A configuration that initialises and serves [events]. *)
Definition config : Configuration string string :=
  {| config_init := inr ();
     config_getConfig := λ _, inr events |}.


(** A translation table in which the two labels are the same string. *)
Definition colliding : TranslationUtils string := {|
  getTranslatedName _ n := Some n;
  getEnglishName n := Some n;
  getTranslations _ :=
    {| external_links := "Links"; useful_links := "Links";
       see_related_links := "See related links" |} |}.

(** A translation table in which both labels are the string '__proto__'. *)
Definition proto_labels : TranslationUtils string := {|
  getTranslatedName _ n := Some n;
  getEnglishName n := Some n;
  getTranslations _ :=
    {| external_links := "__proto__"; useful_links := "__proto__";
       see_related_links := "See related links" |} |}.


End Sample.

(** ** DisplayUtils.js: the icon of an object for a platform *)

Module PlatformIcons.

(** [DefaultIconObject]: an icon and the class it is drawn from. *)
Record DefaultIconObject := { icon : string; iconClass : string }.

(** The object under the key 'ios' or 'android'; it has, or has not, each
    of the keys 'icon' and 'iconClass'. *)
Record PlatformEntry := {
  entry_icon : option string;
  entry_iconClass : option string;
}.

(** [IconObject]: each of its four keys is there ([Some]) or not. *)
Record IconObject := {
  ios : option PlatformEntry;
  android : option PlatformEntry;
  obj_icon : option string;
  obj_iconClass : option string;
}.

Definition getIOSIcon (obj : IconObject) : option DefaultIconObject :=
  match ios obj with
  | Some {| entry_icon := Some i; entry_iconClass := Some c |} =>
      Some {| icon := i; iconClass := c |}
  | _ =>
      match obj_icon obj, obj_iconClass obj with
      | Some i, Some c => Some {| icon := i; iconClass := c |}
      | _, _ => None
      end
  end.

Definition getAndroidIcon (obj : IconObject) : option DefaultIconObject :=
  match android obj with
  | Some {| entry_icon := Some i; entry_iconClass := Some c |} =>
      Some {| icon := i; iconClass := c |}
  | _ =>
      match obj_icon obj, obj_iconClass obj with
      | Some i, Some c => Some {| icon := i; iconClass := c |}
      | _, _ => None
      end
  end.

Definition getPlatformIcon (platform : string) (obj : IconObject)
    : option DefaultIconObject :=
  if decide (platform = "ios") then getIOSIcon obj
  else if decide (platform = "android") then getAndroidIcon obj
  else None.

(** The pair an entry holds when it has both keys. *)
Definition entry_pair (e : PlatformEntry) : option DefaultIconObject :=
  match entry_icon e, entry_iconClass e with
  | Some i, Some c => Some {| icon := i; iconClass := c |}
  | _, _ => None
  end.

(** The pair the object itself holds when it has both keys. *)
Definition default_pair (obj : IconObject) : option DefaultIconObject :=
  match obj_icon obj, obj_iconClass obj with
  | Some i, Some c => Some {| icon := i; iconClass := c |}
  | _, _ => None
  end.

(** An object with the icon 'a' of class 'x' for every platform, an entry
    for iOS that has only an icon, and a full entry for Android. *)
Definition sample : IconObject :=
  {| ios := Some {| entry_icon := Some "b"; entry_iconClass := None |};
     android := Some {| entry_icon := Some "c"; entry_iconClass := Some "z" |};
     obj_icon := Some "a";
     obj_iconClass := Some "x" |}.

End PlatformIcons.

(** ** links.js: the icons of the two groups of results *)

(** The value [{icon: {class, name}}] kept for a group. *)
Record GroupIcon := { group_icon : IconObject }.

Section ResultIcons.
Context {Name : Type} `{TU : !TranslationUtils Name}.

(** [getResultIcons]: two assignments into the empty object, the useful
    links first. *)
Definition getResultIcons (language : Language) : gmap string GroupIcon :=
  let Translations := getTranslations language in
  JsObject.assign (external_links Translations)
    {| group_icon := {| icon_name := "md-open"; icon_class := "ionicon" |} |}
    (JsObject.assign (useful_links Translations)
       {| group_icon := {| icon_name := "link"; icon_class := "material" |} |}
       ∅).

(** Two results that differ at most in their payload. *)
Definition same_but_data (a b : SearchResult Name) : Prop :=
  description a = description b
  ∧ result_icon a = result_icon b
  ∧ matchedTerms a = matchedTerms b
  ∧ title a = title b.

(** Two stores whose objects differ at most in their ids. *)
Definition same_but_ids (store store' : list (LinkSection Name)) : Prop :=
  ∀ p, other_fields_at store p = other_fields_at store' p.

End ResultIcons.

(** ** SplashScreen.js: loading the preferences and the configuration *)

Module SplashScreen.
Section Component.
Context {Value Err University Semesters : Type}.

(** [university.semesters]. *)
Variable semesters : University → Semesters.

(** [Preferences], which is not part of the component: how the promise of
    each of its getters settles. *)
Record Preferences := {
  getTimesAppOpened : Err + Value;
  getSelectedLanguage : Err + Value;
  getCurrentSemester : Err + Value;
  getPrefersWheelchair : Err + Value;
  getAlwaysSearchAll : Err + Value;
  getPreferredTimeFormat : Err + Value;
}.

(** [Configuration] as the component uses it: how the promises of [init]
    and of [getConfig] settle. *)
Record Configuration := {
  init : Err + unit;
  getConfig : string → Err + University;
}.

(** The objects handed to the action [updateConfiguration]; a field read
    past the end of an array is [None]. *)
Inductive ConfigurationUpdate :=
| LanguageUpdate (language : Language) (firstTime : bool)
| SemestersUpdate (semesters : Semesters)
| PreferencesUpdate
    (timesAppOpened language currentSemester prefersWheelchair
       alwaysSearchAll preferredTimeFormat : option Value).

(** What the component does to the world, in order.  Of a call of the
    console only the message is kept. *)
Inductive Event :=
| Dispatched (update : ConfigurationUpdate)
| NavigatorPush (id : string)
| ConfigurationInit
| ConfigurationGetConfig (file : string)
| ConsoleLog (message : string)
| ConsoleError (message : string).

(** The three functions of [actions]. *)
Definition onLanguageSelect (language : Language) : list Event :=
  [Dispatched (LanguageUpdate language true)].

Definition updateConfiguration (university : University) : list Event :=
  [Dispatched (SemestersUpdate (semesters university))].

Definition updatePreferences (preferences : list Value) : list Event :=
  [Dispatched
     (PreferencesUpdate (preferences !! 0) (preferences !! 1) (preferences !! 2)
        (preferences !! 3) (preferences !! 4) (preferences !! 5))].

(** [Promise.all]: the values in the order of the promises when every one
    resolves, and a rejection otherwise. *)
Fixpoint Promise_all (promises : list (Err + Value)) : option (list Value) :=
  match promises with
  | [] => Some []
  | inr v :: rest => (λ vs, v :: vs) <$> Promise_all rest
  | inl _ :: _ => None
  end.

Definition _checkConfiguration (Config : Configuration) : list Event :=
  match init Config with
  | inl _ =>
      [ConfigurationInit;
       ConsoleLog "Assuming configuration is not available.";
       NavigatorPush "update"]
  | inr _ =>
      match getConfig Config "/university.json" with
      | inl _ =>
          [ConfigurationInit; ConfigurationGetConfig "/university.json";
           ConsoleLog "Assuming configuration is not available.";
           NavigatorPush "update"]
      | inr university =>
          [ConfigurationInit; ConfigurationGetConfig "/university.json"]
          ++ updateConfiguration university
          ++ [NavigatorPush "main"]
      end
  end.

Definition _loadPreferences (Prefs : Preferences) (Config : Configuration)
    : list Event :=
  match
    Promise_all
      [ getTimesAppOpened Prefs;
        getSelectedLanguage Prefs;
        getCurrentSemester Prefs;
        getPrefersWheelchair Prefs;
        getAlwaysSearchAll Prefs;
        getPreferredTimeFormat Prefs ]
  with
  | Some results => updatePreferences results ++ _checkConfiguration Config
  | None => [ConsoleError "Unable to load initial preferences"]
  end.

Definition componentDidMount (Prefs : Preferences) (Config : Configuration)
    : list Event :=
  _loadPreferences Prefs Config.

Definition _onLanguageSelect (language : Language) : list Event :=
  onLanguageSelect language ++ [NavigatorPush "main"].

(** The screens the navigator is sent to. *)
Definition pushes (trace : list Event) : list string :=
  omap (λ e, match e with NavigatorPush i => Some i | _ => None end) trace.

End Component.

Arguments Preferences : clear implicits.
Arguments Configuration : clear implicits.
Arguments ConfigurationUpdate : clear implicits.
Arguments Event : clear implicits.

(** Preferences that all load, and preferences of which one does not. *)
Definition loaded : Preferences nat string :=
  {| getTimesAppOpened := inr 10; getSelectedLanguage := inr 11;
     getCurrentSemester := inr 12; getPrefersWheelchair := inr 13;
     getAlwaysSearchAll := inr 14; getPreferredTimeFormat := inr 15 |}.

Definition broken : Preferences nat string :=
  {| getTimesAppOpened := inr 10; getSelectedLanguage := inr 11;
     getCurrentSemester := inl "storage"; getPrefersWheelchair := inr 13;
     getAlwaysSearchAll := inr 14; getPreferredTimeFormat := inr 15 |}.

Definition available : Configuration string (list nat) :=
  {| init := inr (); getConfig := λ _, inr [1; 2] |}.

End SplashScreen.

(** ** BuildingGrid.js: the margins of a cell of the grid *)

Module BuildingGrid.

(** The margins in the style of the view [_renderRow] returns. *)
Record Margins := {
  marginLeft : Z;
  marginRight : Z;
  marginTop : Z;
  marginBottom : Z;
}.

(** The margins [_renderRow] computes for the row number [rowVal], the
    integer [parseInt(rowId)]; [%] is the remainder with the sign of the
    dividend. *)
Definition _renderRow (rowVal : Z) : Margins :=
  let iconLeftMargin := 5%Z in
  let iconRightMargin := 5%Z in
  let iconTopMargin := 0%Z in
  let '(iconLeftMargin, iconRightMargin) :=
    if (Z.rem rowVal 3 =? 0)%Z then ((iconLeftMargin + 5)%Z, iconRightMargin)
    else if (Z.rem rowVal 3 =? 2)%Z then (iconLeftMargin, (iconRightMargin + 5)%Z)
    else (iconLeftMargin, iconRightMargin) in
  let iconTopMargin := if (rowVal <? 3)%Z then 10%Z else iconTopMargin in
  {| marginLeft := iconLeftMargin;
     marginRight := iconRightMargin;
     marginTop := iconTopMargin;
     marginBottom := 15 |}.

End BuildingGrid.

(** * Properties *)

(** ** Strings *)

Module JsStringFacts.
Import JsString.

Lemma all_ascii_complete (a : ascii) : a ∈ all_ascii.
Proof.
  rewrite <- (ascii_nat_embedding a).
  apply list_elem_of_fmap_2, elem_of_seq.
  pose proof (nat_ascii_bounded a). lia.
Qed.

Lemma for_all_ascii (P : ascii → bool) :
  forallb P all_ascii = true → ∀ a, P a = true.
Proof.
  intros H a. rewrite forallb_forall in H.
  apply H, list_elem_of_In, all_ascii_complete.
Qed.

(** Code units that [same_letter] takes for the same letter have the same
    lowercase and the same uppercase form. *)
Lemma same_letter_lower (a b : ascii) :
  same_letter a b = true → lower_char a = lower_char b.
Proof.
  assert (H : forallb (λ a, forallb (λ b,
                implb (same_letter a b)
                      (bool_decide (lower_char a = lower_char b)))
                all_ascii) all_ascii = true) by (vm_compute; reflexivity).
  pose proof (for_all_ascii _ H a) as Ha. cbv beta in Ha.
  pose proof (for_all_ascii _ Ha b) as Hab. cbv beta in Hab.
  intros Hsame. rewrite Hsame in Hab. simpl in Hab.
  by apply bool_decide_eq_true_1 in Hab.
Qed.

Lemma eq_ignore_case_lower (s t : string) :
  eq_ignore_case s t = true → toLowerCase s = toLowerCase t.
Proof.
  unfold toLowerCase. revert t.
  induction s as [|a s IH]; intros [|b t]; simpl; try done.
  intros [Hab Hst]%andb_true_iff.
  by rewrite (same_letter_lower _ _ Hab), (IH _ Hst).
Qed.

(** *** [indexOf] finds exactly the substrings *)

Lemma starts_with_spec (t s : string) :
  starts_with t s = true ↔ ∃ post, s = t +:+ post.
Proof.
  revert s. induction t as [|a t IH]; intros s; simpl.
  - split; [intros _; by exists s | done].
  - destruct s as [|b s].
    + split; [done | intros [post [=]]].
    + case_decide as Hab.
      * subst b. rewrite IH. split.
        -- intros [post ->]. by exists post.
        -- intros [post [= ->]]. by exists post.
      * split; [done | intros [post [= ? ?]]; done].
Qed.

Lemma indexOf_from_ge (k : Z) (s t : string) :
  (indexOf_from k s t = -1 ∨ k ≤ indexOf_from k s t)%Z.
Proof.
  revert k. induction s as [|a s IH]; intros k; simpl.
  - destruct (starts_with t ""); [right; lia | by left].
  - destruct (starts_with t (String a s)); [right; lia|].
    destruct (IH (k + 1)%Z) as [->| ?]; [by left | right; lia].
Qed.

Lemma indexOf_from_found (k : Z) (s t : string) :
  (0 ≤ k)%Z → (0 ≤ indexOf_from k s t)%Z ↔ substring_of t s.
Proof.
  revert k. induction s as [|a s IH]; intros k Hk; simpl.
  - destruct (starts_with t "") eqn:Hst.
    + split; [intros _ | done].
      apply starts_with_spec in Hst as [post Hpost].
      by exists "", post.
    + split; [lia|]. intros [pre [post Heq]].
      destruct pre as [|c pre]; [|done].
      assert (starts_with t "" = true) as Hst'; [|congruence].
      apply starts_with_spec. by exists post.
  - destruct (starts_with t (String a s)) eqn:Hst.
    + split; [intros _ | done].
      apply starts_with_spec in Hst as [post Hpost].
      by exists "", post.
    + rewrite IH by lia. split.
      * intros [pre [post ->]]. by exists (String a pre), post.
      * intros [pre [post Heq]]. destruct pre as [|c pre].
        -- assert (starts_with t (String a s) = true) as Hst'; [|congruence].
           apply starts_with_spec. by exists post.
        -- injection Heq as _ ->. by exists pre, post.
Qed.

Lemma indexOf_found (s t : string) :
  (0 ≤ indexOf s t)%Z ↔ substring_of t s.
Proof. by apply indexOf_from_found. Qed.

End JsStringFacts.

(** ** Assignments to an object used as a map *)

Module JsObjectFacts.
Import JsObject.

Section Assign.
Context {V : Type}.
Implicit Types (key : string) (value : V) (obj : gmap string V).

Lemma lookup_assign_eq key value obj :
  key ≠ "__proto__" → assign key value obj !! key = Some value.
Proof. intros H. unfold assign. by rewrite decide_False, lookup_insert_eq. Qed.

Lemma lookup_assign_ne key key' value obj :
  key ≠ key' → assign key value obj !! key' = obj !! key'.
Proof.
  intros H. unfold assign. case_decide; [done|]. by rewrite lookup_insert_ne.
Qed.

Lemma lookup_assign_proto key value obj :
  assign key value obj !! "__proto__" = obj !! "__proto__".
Proof.
  unfold assign. case_decide as H; [done|]. by rewrite lookup_insert_ne.
Qed.

Lemma lookup_assign_Some key value obj key' value' :
  assign key value obj !! key' = Some value' →
  (key = key' ∧ key ≠ "__proto__" ∧ value = value') ∨ obj !! key' = Some value'.
Proof.
  unfold assign. case_decide as H; [by right|].
  intros [[-> <-]|[_ Hobj]]%lookup_insert_Some; [by left | by right].
Qed.

Lemma assign_assign key value value' obj :
  assign key value' (assign key value obj) = assign key value' obj.
Proof. unfold assign. case_decide; [done|]. by rewrite insert_insert_eq. Qed.

Lemma assign_proto value obj : assign "__proto__" value obj = obj.
Proof. done. Qed.

Lemma assign_ordinary key value obj :
  key ≠ "__proto__" → assign key value obj = <[key := value]> obj.
Proof. intros H. unfold assign. by rewrite decide_False. Qed.

Lemma dom_assign key value obj :
  dom (assign key value obj) = ({[ key ]} ∖ {[ "__proto__" ]}) ∪ dom obj.
Proof.
  unfold assign. case_decide as H.
  - subst key. set_solver.
  - rewrite dom_insert_L. set_solver.
Qed.

End Assign.
End JsObjectFacts.

(** ** The store *)

Section StoreFacts.
Context {Name : Type}.
Implicit Types (s c : LinkSection Name) (store : list (LinkSection Name)).
Implicit Types (p q : list nat).

Lemma get_in_app s p q : get_in s (p ++ q) = get_in s p ≫= λ c, get_in c q.
Proof.
  revert s. induction p as [|j p IH]; intros s; simpl; [done|].
  destruct (subcategories s !! j); simpl; [apply IH | done].
Qed.

Lemma get_app store p q :
  p ≠ [] → get store (p ++ q) = get store p ≫= λ c, get_in c q.
Proof.
  destruct p as [|j p]; [done|]. intros _. simpl.
  destruct (store !! j); simpl; [apply get_in_app | done].
Qed.

Lemma get_Some_nonempty store p s : get store p = Some s → p ≠ [].
Proof. by destruct p. Qed.

Lemma get_snoc store p j s :
  get store p = Some s → get store (p ++ [j]) = subcategories s !! j.
Proof.
  intros H. rewrite get_app by eauto using get_Some_nonempty.
  rewrite H. simpl. by destruct (subcategories s !! j).
Qed.

Lemma get_snoc_None store p j :
  p ≠ [] → get store p = None → get store (p ++ [j]) = None.
Proof. intros Hp H. by rewrite get_app, H. Qed.

Lemma get_root store j : get store [j] = store !! j.
Proof. simpl. by destruct (store !! j). Qed.

Lemma snoc_inj p q (j k : nat) : p ++ [j] = q ++ [k] → p = q ∧ j = k.
Proof. intros H. by apply app_inj_tail in H. Qed.

Lemma snoc_ne_self p (j : nat) : p ≠ p ++ [j].
Proof.
  intros H. apply (f_equal length) in H. rewrite length_app in H. simpl in H. lia.
Qed.

Lemma subcategories_alter (f : LinkSection Name → LinkSection Name) (k : nat) s :
  default [] (alter f k <$> categories s) = alter f k (subcategories s).
Proof. unfold subcategories. by destruct (categories s). Qed.

(** Writing an id through one reference changes the id read through that
    reference and nothing else. *)
Lemma get_in_update_in_set_id (v : string) q s p :
  (λ c, (id c, other_fields c)) <$> get_in (update_in (set_id v) q s) p
  = (λ o, if decide (p = q) then (v, o.2) else o)
      <$> ((λ c, (id c, other_fields c)) <$> get_in s p).
Proof.
  revert s p. induction q as [|k q IH]; intros s p.
  - destruct p as [|j p]; [done|]. simpl.
    change (subcategories (set_id v s)) with (subcategories s).
    by destruct (subcategories s !! j ≫= _).
  - destruct p as [|j p]; simpl.
    + unfold other_fields. simpl. do 3 f_equal.
      destruct (categories s); simpl; [|done]. by rewrite length_alter.
    + unfold subcategories at 1. simpl. rewrite subcategories_alter.
      destruct (decide (j = k)) as [->|Hjk].
      * rewrite list_lookup_alter_eq.
        destruct (subcategories s !! k) as [c|]; simpl; [|done].
        rewrite IH. destruct (get_in c p); simpl; [|done].
        repeat case_decide; done || congruence.
      * rewrite list_lookup_alter_ne by done.
        destruct (subcategories s !! j ≫= _); simpl; [|done].
        case_decide; done || congruence.
Qed.

Lemma get_update_set_id (v : string) store q p :
  (λ c, (id c, other_fields c)) <$> get (update (set_id v) store q) p
  = (λ o, if decide (p = q) then (v, o.2) else o)
      <$> ((λ c, (id c, other_fields c)) <$> get store p).
Proof.
  destruct q as [|k q].
  - simpl. destruct (get store p) as [c|] eqn:Hc; simpl; [|done].
    case_decide; [|done]. subst p. done.
  - destruct p as [|j p]; simpl; [done|].
    destruct (decide (j = k)) as [->|Hjk].
    + rewrite list_lookup_alter_eq.
      destruct (store !! k) as [c|]; simpl; [|done].
      rewrite get_in_update_in_set_id. destruct (get_in c p); simpl; [|done].
      repeat case_decide; done || congruence.
    + rewrite list_lookup_alter_ne by done.
      destruct (store !! j ≫= _); simpl; [|done].
      case_decide; done || congruence.
Qed.

Lemma other_fields_at_update (v : string) store q p :
  other_fields_at (update (set_id v) store q) p = other_fields_at store p.
Proof.
  pose proof (get_update_set_id v store q p) as H.
  unfold other_fields_at.
  destruct (get (update (set_id v) store q) p), (get store p);
    simpl in *; try done.
  case_decide; congruence.
Qed.

Lemma id_at_update (v : string) store q p :
  id_at (update (set_id v) store q) p
  = if decide (p = q) then (λ _, v) <$> id_at store p else id_at store p.
Proof.
  pose proof (get_update_set_id v store q p) as H.
  unfold id_at.
  destruct (get (update (set_id v) store q) p), (get store p);
    simpl in *; case_decide; congruence.
Qed.

Lemma other_fields_at_is_Some store store' p :
  other_fields_at store' p = other_fields_at store p →
  is_Some (get store' p) ↔ is_Some (get store p).
Proof.
  unfold other_fields_at. intros H.
  rewrite <- !(fmap_is_Some other_fields), H. done.
Qed.

End StoreFacts.

(** ** The loop of the search *)

Section SearchFacts.
Context {Name : Type} `{TU : !TranslationUtils Name}.
Import JsString JsStringFacts JsObjectFacts.

Implicit Types (s c : LinkSection Name) (store : list (LinkSection Name)).
Implicit Types (p q : list nat) (language : Language) (searchTerms : string).

Lemma refs_below_S p n : refs_below p (S n) = refs_below p n ++ [p ++ [n]].
Proof. unfold refs_below. by rewrite seq_S, fmap_app. Qed.

Lemma elem_of_refs_below q p n :
  q ∈ refs_below p n ↔ ∃ j, j < n ∧ q = p ++ [j].
Proof.
  unfold refs_below. rewrite list_elem_of_fmap.
  split; intros [j [H1 H2]]; exists j.
  - apply elem_of_seq in H2. split; [lia | done].
  - split; [done|]. apply elem_of_seq. lia.
Qed.

Lemma refs_below_NoDup p n : NoDup (refs_below p n).
Proof.
  unfold refs_below. apply NoDup_fmap_2_strong; [|apply NoDup_seq].
  intros j k _ _ H. by apply snoc_inj in H as [_ ?].
Qed.

Lemma rewrite_ids_S store p n :
  rewrite_ids store p (S n)
  = match get (rewrite_ids store p n) p, get (rewrite_ids store p n) (p ++ [n]) with
    | Some section, Some sub =>
        update (set_id (id section +:+ "-" +:+ id sub)) (rewrite_ids store p n) (p ++ [n])
    | _, _ => rewrite_ids store p n
    end.
Proof. unfold rewrite_ids. by rewrite seq_S, foldl_app. Qed.

(** The loop over the categories of [section] prefixes the id of each of
    them once and writes nothing else. *)
Lemma rewrite_ids_spec store p section n q :
  get store p = Some section →
  other_fields_at (rewrite_ids store p n) q = other_fields_at store q
  ∧ id_at (rewrite_ids store p n) q
    = if decide (q ∈ refs_below p n)
      then (λ sub, id section +:+ "-" +:+ sub) <$> id_at store q
      else id_at store q.
Proof.
  intros Hp. revert q. induction n as [|n IH]; intros q.
  { split; [done|]. case_decide as H; [|done]. by apply elem_of_nil in H. }
  rewrite rewrite_ids_S. set (store' := rewrite_ids store p n) in *.
  assert (p ∉ refs_below p n) as Hp_fresh.
  { rewrite elem_of_refs_below. intros [j [_ H]]. by apply snoc_ne_self in H. }
  assert (p ++ [n] ∉ refs_below p n) as Hn_fresh.
  { rewrite elem_of_refs_below. intros [j [Hj H]]. apply snoc_inj in H. lia. }
  destruct (IH p) as [_ Hid_p]. rewrite decide_False in Hid_p by done.
  destruct (IH (p ++ [n])) as [_ Hid_n]. rewrite decide_False in Hid_n by done.
  destruct (IH q) as [Hother Hid].
  unfold id_at in Hid_p, Hid_n. rewrite Hp in Hid_p.
  destruct (get store' p) as [section'|] eqn:Hp'; [|done].
  injection Hid_p as Hid_p.
  assert (q ∈ refs_below p (S n) ↔ q = p ++ [n] ∨ q ∈ refs_below p n) as Hmem.
  { rewrite refs_below_S, elem_of_app, list_elem_of_singleton. tauto. }
  destruct (get store' (p ++ [n])) as [sub|] eqn:Hsub.
  - split; [by rewrite other_fields_at_update|].
    rewrite id_at_update. destruct (decide (q = p ++ [n])) as [->|Hq].
    + rewrite decide_True by (apply Hmem; by left).
      unfold id_at at 1. rewrite Hsub. simpl.
      unfold id_at. rewrite <- Hid_n. simpl. by rewrite Hid_p.
    + rewrite Hid. repeat case_decide; done || tauto.
  - split; [done|]. rewrite Hid.
    destruct (decide (q = p ++ [n])) as [->|Hq].
    + rewrite decide_False, decide_True by (done || apply Hmem; by left).
      unfold id_at. rewrite <- Hid_n. done.
    + repeat case_decide; done || tauto.
Qed.

(** *** What the body pushes *)

Lemma foldl_pushLink sectionName (f g : Link Name → string) (b : bool)
    (acc : list (SearchResult Name)) (ls : list (Link Name)) :
  foldl (λ links link, pushLink links sectionName (f link) (g link) link b) acc ls
  = acc ++ ((λ link, link_result sectionName (f link) (g link) link b) <$> ls).
Proof.
  revert acc. induction ls as [|l ls IH]; intros acc; simpl.
  - by rewrite app_nil_r.
  - rewrite IH. unfold pushLink. by rewrite <- app_assoc.
Qed.

Lemma foldl_pushLink_if sectionName (f g : Link Name → string) (b : bool)
    (P : Link Name → bool)
    (acc : list (SearchResult Name)) (ls : list (Link Name)) :
  foldl (λ links link,
           if P link then pushLink links sectionName (f link) (g link) link b
           else links) acc ls
  = acc ++ ((λ link, link_result sectionName (f link) (g link) link b)
              <$> filter (λ link, P link = true) ls).
Proof.
  revert acc. induction ls as [|l ls IH]; intros acc; simpl.
  - by rewrite app_nil_r.
  - rewrite IH. destruct (P l) eqn:HP.
    + rewrite filter_cons_True by done. unfold pushLink.
      by rewrite <- app_assoc.
    + rewrite filter_cons_False by congruence. done.
Qed.

Lemma search_section_spec language searchTerms s
    (links categories : list (SearchResult Name)) :
  search_section language searchTerms s links categories
  = (links ++ emitted_links language searchTerms s,
     categories ++ emitted_category language searchTerms (id s) s).
Proof.
  unfold search_section, emitted_links, emitted_category, social_icon. cbv zeta.
  destruct (name_matches searchTerms (translated_or_empty language (name s))).
  - f_equal.
    destruct (Model.links s) as [ls|], (social s) as [ss|]; simpl;
      rewrite ?(foldl_pushLink _ _ (λ _, "md-open")),
              ?(foldl_pushLink _ _ (λ link, DisplayUtils.getSocialMediaIconName _)),
              ?app_nil_r, <- ?app_assoc; done.
  - rewrite app_nil_r. f_equal.
    destruct (Model.links s) as [ls|], (social s) as [ss|]; simpl;
      rewrite ?(foldl_pushLink_if _ _ (λ _, "md-open")),
              ?(foldl_pushLink_if _ _ (λ link, DisplayUtils.getSocialMediaIconName _)),
              ?app_nil_r, <- ?app_assoc; done.
Qed.

Lemma emitted_links_other_fields language searchTerms s s' :
  other_fields s = other_fields s' →
  emitted_links language searchTerms s = emitted_links language searchTerms s'.
Proof.
  unfold other_fields, emitted_links. intros [= Hn _ Hl Hs _].
  by rewrite Hn, Hl, Hs.
Qed.

Lemma emitted_category_other_fields language searchTerms (i : string) s s' :
  other_fields s = other_fields s' →
  emitted_category language searchTerms i s
  = emitted_category language searchTerms i s'.
Proof.
  unfold other_fields, emitted_category. intros [= Hn Hi _ _ _].
  by rewrite Hn, Hi.
Qed.

(** *** Chains of ids *)

Lemma string_app_assoc (a b c : string) : (a +:+ b) +:+ c = a +:+ b +:+ c.
Proof.
  induction a as [|x a IH]; [done|].
  change (String x ((a +:+ b) +:+ c) = String x (a +:+ b +:+ c)).
  by rewrite IH.
Qed.

Lemma concat_snoc (sep x : string) (l : list string) :
  l ≠ [] → String.concat sep (l ++ [x]) = String.concat sep l +:+ sep +:+ x.
Proof.
  induction l as [|a l IH]; [done|]. intros _.
  destruct l as [|b l]; [done|].
  change (String.concat sep ((a :: b :: l) ++ [x]))
    with (a +:+ sep +:+ String.concat sep ((b :: l) ++ [x])).
  rewrite IH by done.
  change (String.concat sep (a :: b :: l))
    with (a +:+ sep +:+ String.concat sep (b :: l)).
  by rewrite !string_app_assoc.
Qed.

Lemma omap_ext_in {A B} (f g : A → option B) (l : list A) :
  (∀ x, x ∈ l → f x = g x) → omap f l = omap g l.
Proof.
  induction l as [|x l IH]; intros H; [done|]. csimpl.
  rewrite (H x) by left. rewrite IH by (intros; apply H; by right). done.
Qed.

Lemma ancestor_ids_snoc store p (j : nat) :
  ancestor_ids store (p ++ [j])
  = ancestor_ids store p ++ option_list (id_at store (p ++ [j])).
Proof.
  unfold ancestor_ids. rewrite length_app. simpl.
  rewrite Nat.add_1_r, seq_S, omap_app. f_equal.
  - apply omap_ext_in. intros k Hk. apply elem_of_seq in Hk.
    by rewrite take_app_le by lia.
  - csimpl. rewrite take_ge by (rewrite length_app; simpl; lia).
    by destruct (id_at store (p ++ [j])).
Qed.

Lemma chain_id_root store (j : nat) s :
  get store [j] = Some s → chain_id store [j] = id s.
Proof.
  intros H. unfold chain_id, ancestor_ids, id_at.
  change (seq 1 (length [j])) with [1]. csimpl in *. by rewrite H.
Qed.

Lemma ancestor_ids_nonempty store p s :
  get store p = Some s → ancestor_ids store p ≠ [].
Proof.
  intros H Hnil. assert (id s ∈ ancestor_ids store p) as Hin.
  { apply list_elem_of_omap. exists (length p). split.
    - apply elem_of_seq. apply get_Some_nonempty in H.
      destruct p; [done|]. simpl. lia.
    - unfold id_at. by rewrite take_ge, H by lia. }
  rewrite Hnil in Hin. by apply elem_of_nil in Hin.
Qed.

Lemma chain_id_snoc store p (j : nat) s c :
  get store p = Some s → get store (p ++ [j]) = Some c →
  chain_id store (p ++ [j]) = chain_id store p +:+ "-" +:+ id c.
Proof.
  intros Hs Hc. unfold chain_id. rewrite ancestor_ids_snoc.
  unfold id_at at 1. rewrite Hc. simpl.
  apply concat_snoc. by eapply ancestor_ids_nonempty.
Qed.

(** *** Sizes *)

Lemma section_size_eq s :
  section_size s = S (sum_list_with section_size (subcategories s)).
Proof. destruct s as [? ? ? ? ? [cs|]]; done. Qed.

Lemma sum_sizes_refs_below store p (l : list (LinkSection Name)) (n : nat) :
  (∀ j, get store (p ++ [j]) = l !! j) →
  sum_list_with (size_at store) (refs_below p n)
  = sum_list_with section_size (take n l).
Proof.
  intros H. induction n as [|n IH]; [done|].
  rewrite refs_below_S, sum_list_with_app, IH. simpl.
  unfold size_at. rewrite H.
  destruct (l !! n) as [x|] eqn:Hx.
  - rewrite (take_S_r _ _ x), sum_list_with_app by done. simpl. lia.
  - apply lookup_ge_None in Hx. rewrite !take_ge by lia. simpl. lia.
Qed.

Lemma size_at_children store p s :
  get store p = Some s →
  size_at store p = S (sum_list_with (size_at store) (children_refs store p)).
Proof.
  intros H. unfold size_at at 1, children_refs. rewrite H. simpl.
  rewrite section_size_eq. f_equal.
  rewrite (sum_sizes_refs_below _ _ (subcategories s)).
  - by rewrite take_ge.
  - intros j. by apply get_snoc.
Qed.

Lemma size_roots store :
  sum_list_with (size_at store) (refs_below [] (length store)) = forest_size store.
Proof.
  rewrite (sum_sizes_refs_below _ _ store).
  - by rewrite take_ge.
  - intros j. apply get_root.
Qed.

(** *** The invariant of the loop *)

Lemma other_fields_arity s s' :
  other_fields s = other_fields s' →
  length (subcategories s) = length (subcategories s').
Proof.
  unfold other_fields, subcategories. intros [= _ _ _ _ H].
  destruct (categories s), (categories s'); simpl in *; congruence.
Qed.

Lemma children_refs_inv store p q :
  q ∈ children_refs store p →
  ∃ s j, get store p = Some s ∧ q = p ++ [j] ∧ is_Some (get store q).
Proof.
  unfold children_refs. destruct (get store p) as [s|] eqn:H.
  - rewrite elem_of_refs_below. intros [j [Hj ->]].
    exists s, j. split_and!; [done..|].
    rewrite (get_snoc _ _ _ _ H). by apply lookup_lt_is_Some.
  - by rewrite elem_of_nil.
Qed.

Lemma root_refs_inv store q :
  q ∈ refs_below [] (length store) → ∃ j s, q = [j] ∧ get store [j] = Some s.
Proof.
  rewrite elem_of_refs_below. intros [j [Hj ->]].
  destruct (lookup_lt_is_Some_2 store j Hj) as [s Hs].
  exists j, s. by rewrite get_root.
Qed.

Lemma invariant_init language searchTerms store0 :
  loop_invariant language searchTerms store0 store0
    (refs_below [] (length store0)) 0 [] [].
Proof.
  split; try done.
  - intros p Hp. apply root_refs_inv in Hp as (j & s & -> & Hs).
    unfold id_at. rewrite Hs. simpl. by rewrite (chain_id_root _ _ s).
  - simpl. by rewrite app_nil_r.
  - apply refs_below_NoDup.
  - intros p Hp. apply root_refs_inv in Hp as (j & s & -> & Hs). by eexists.
  - intros k p j Hk Hp. apply list_elem_of_lookup_2 in Hk.
    apply elem_of_refs_below in Hk as [j' [_ Hk]].
    apply (snoc_inj p []) in Hk as [? _]. done.
Qed.

Lemma invariant_take language searchTerms store0 store
    (sectionsToSearch : list (list nat)) (i i' : nat)
    (links categories : list (SearchResult Name)) :
  take i sectionsToSearch = take i' sectionsToSearch →
  loop_invariant language searchTerms store0 store sectionsToSearch i
    links categories →
  loop_invariant language searchTerms store0 store sectionsToSearch i'
    links categories.
Proof. intros Heq [? ? ? ? ? ? ? ? ?]. split; try done; by rewrite <- Heq. Qed.

Lemma invariant_step language searchTerms store0 store
    (sectionsToSearch : list (list nat)) (i : nat)
    (links categories : list (SearchResult Name)) p section :
  loop_invariant language searchTerms store0 store sectionsToSearch i
    links categories →
  sectionsToSearch !! i = Some p →
  get store p = Some section →
  loop_invariant language searchTerms store0
    (rewrite_ids store p (length (subcategories section)))
    (sectionsToSearch ++ refs_below p (length (subcategories section)))
    (S i)
    (links ++ emitted_links language searchTerms section)
    (categories ++ emitted_category language searchTerms (id section) section).
Proof.
  intros [Hother Hlisted Hunlisted Hlist Hnodup Hvalid Hparent Hlinks Hcats] Hi Hp.
  set (n := length (subcategories section)).
  assert (p ∈ sectionsToSearch) as Hp_in by by eapply list_elem_of_lookup_2.
  assert (p ≠ []) as Hp_ne by by eapply get_Some_nonempty.
  (* the section as the document has it *)
  destruct (get store0 p) as [s0|] eqn:Hp0; cycle 1.
  { specialize (Hother p). unfold other_fields_at in Hother.
    by rewrite Hp, Hp0 in Hother. }
  assert (other_fields section = other_fields s0) as Hfields.
  { specialize (Hother p). unfold other_fields_at in Hother.
    rewrite Hp, Hp0 in Hother. simpl in Hother. congruence. }
  assert (children_refs store0 p = refs_below p n) as Hchildren.
  { unfold children_refs. rewrite Hp0. unfold n.
    by rewrite (other_fields_arity _ _ Hfields). }
  assert (id section = chain_id store0 p) as Hid.
  { specialize (Hlisted p Hp_in). unfold id_at in Hlisted.
    rewrite Hp in Hlisted. simpl in Hlisted. congruence. }
  assert (∀ x, x ∈ sectionsToSearch → x ∉ refs_below p n) as Hfresh.
  { intros x Hx Hrefs. apply elem_of_refs_below in Hrefs as [j [Hj ->]].
    assert (p ++ [j] ∈ refs_below [] (length store0)
                      ++ (take i sectionsToSearch ≫= children_refs store0)) as Hx'
      by by rewrite <- Hlist.
    apply elem_of_app in Hx' as [Hroot|Hchild].
    - apply elem_of_refs_below in Hroot as [j' [_ Hroot]].
      by apply (snoc_inj p []) in Hroot as [? _].
    - apply list_elem_of_bind in Hchild as (y & Hy1 & Hy2).
      apply children_refs_inv in Hy1 as (_ & j' & _ & Hy1 & _).
      apply snoc_inj in Hy1 as [<- _].
      apply elem_of_take in Hy2 as (k & Hk & Hlt).
      pose proof (NoDup_lookup _ _ _ _ Hnodup Hk Hi). lia. }
  assert (i < length sectionsToSearch) as Hi_lt by by eapply lookup_lt_Some.
  assert (take (S i) (sectionsToSearch ++ refs_below p n)
          = take i sectionsToSearch ++ [p]) as Htake.
  { rewrite take_app_le by lia. by apply take_S_r. }
  split.
  - intros q. destruct (rewrite_ids_spec store p section n q Hp) as [-> _].
    apply Hother.
  - intros q Hq. destruct (rewrite_ids_spec store p section n q Hp) as [_ ->].
    apply elem_of_app in Hq as [Hq|Hq].
    + rewrite decide_False by by apply Hfresh. by apply Hlisted.
    + rewrite decide_True by done.
      assert (q ∉ sectionsToSearch) as Hq_new by (intros ?; by eapply Hfresh).
      rewrite (Hunlisted q Hq_new).
      rewrite <- Hchildren in Hq.
      apply children_refs_inv in Hq as (s0' & j & Hs0' & -> & [c Hc]).
      unfold id_at. rewrite Hc. simpl. f_equal.
      rewrite (chain_id_snoc _ _ _ s0 c) by done. by rewrite Hid.
  - intros q Hq. destruct (rewrite_ids_spec store p section n q Hp) as [_ ->].
    apply not_elem_of_app in Hq as [Hq1 Hq2].
    rewrite decide_False by done. by apply Hunlisted.
  - rewrite Htake, bind_app. rewrite app_assoc, <- Hlist. f_equal.
    csimpl. by rewrite app_nil_r.
  - apply NoDup_app. split_and!; [done | done | apply refs_below_NoDup].
  - intros q Hq. apply elem_of_app in Hq as [Hq|Hq]; [by apply Hvalid|].
    rewrite <- Hchildren in Hq.
    by apply children_refs_inv in Hq as (_ & _ & _ & _ & ?).
  - intros k q j Hk Hq.
    destruct (decide (k < length sectionsToSearch)) as [Hlt|Hge].
    + rewrite lookup_app_l in Hk by done.
      rewrite take_app_le by lia. by eapply Hparent.
    + assert (q ++ [j] ∈ refs_below p n) as Hin.
      { rewrite lookup_app_r in Hk by lia. by eapply list_elem_of_lookup_2. }
      apply elem_of_refs_below in Hin as [j' [_ Hin]].
      apply snoc_inj in Hin as [-> _].
      apply elem_of_take. exists i. split; [|lia].
      by apply lookup_app_l_Some.
  - rewrite Htake, bind_app, <- Hlinks. f_equal. csimpl.
    rewrite app_nil_r. unfold links_of. rewrite Hp0. simpl.
    by apply emitted_links_other_fields.
  - rewrite Htake, bind_app, <- Hcats. f_equal. csimpl.
    rewrite app_nil_r. unfold categories_of. rewrite Hp0. simpl.
    rewrite Hid. by apply emitted_category_other_fields.
Qed.

Lemma search_loop_unfold (fuel : nat) language searchTerms store
    (sectionsToSearch : list (list nat)) (i : nat)
    (links categories : list (SearchResult Name)) :
  search_loop (S fuel) language searchTerms store sectionsToSearch i
    links categories
  = match sectionsToSearch !! i with
    | None =>
        Some {| run_store := store;
                run_sectionsToSearch := sectionsToSearch;
                run_links := links;
                run_categories := categories |}
    | Some p =>
        match get store p with
        | None => None
        | Some section =>
            search_loop fuel language searchTerms
              (rewrite_ids store p (length (subcategories section)))
              (sectionsToSearch ++ refs_below p (length (subcategories section)))
              (S i)
              (links ++ emitted_links language searchTerms section)
              (categories
                 ++ emitted_category language searchTerms (id section) section)
        end
    end.
Proof.
  simpl. destruct (sectionsToSearch !! i) as [p|]; [|done].
  destruct (get store p) as [section|]; [|done].
  rewrite search_section_spec. unfold subcategories.
  destruct (Model.categories section); simpl; [done|]. by rewrite app_nil_r.
Qed.

Lemma invariant_section language searchTerms store0 store
    (sectionsToSearch : list (list nat)) (i : nat)
    (links categories : list (SearchResult Name)) p :
  loop_invariant language searchTerms store0 store sectionsToSearch i
    links categories →
  p ∈ sectionsToSearch →
  ∃ section s0,
    get store p = Some section ∧ get store0 p = Some s0
    ∧ children_refs store0 p = refs_below p (length (subcategories section)).
Proof.
  intros Hinv Hp.
  destruct (inv_valid _ _ _ _ _ _ _ _ Hinv p Hp) as [s0 Hs0].
  pose proof (inv_other_fields _ _ _ _ _ _ _ _ Hinv p) as Hother.
  unfold other_fields_at in Hother. rewrite Hs0 in Hother.
  destruct (get store p) as [section|] eqn:Hsection; [|done].
  exists section, s0. split_and!; [done..|].
  unfold children_refs. rewrite Hs0. f_equal.
  apply other_fields_arity. simpl in Hother. congruence.
Qed.

(** With fuel for every section still to be searched, the loop runs to
    its end and the invariant holds there. *)
Lemma search_loop_spec (fuel : nat) language searchTerms store0 store
    (sectionsToSearch : list (list nat)) (i : nat)
    (links categories : list (SearchResult Name)) :
  loop_invariant language searchTerms store0 store sectionsToSearch i
    links categories →
  pending_size store0 sectionsToSearch i < fuel →
  ∃ r,
    search_loop fuel language searchTerms store sectionsToSearch i
      links categories = Some r
    ∧ loop_invariant language searchTerms store0 (run_store r)
        (run_sectionsToSearch r) (length (run_sectionsToSearch r))
        (run_links r) (run_categories r).
Proof.
  revert store sectionsToSearch i links categories.
  induction fuel as [|fuel IH];
    intros store sectionsToSearch i links categories Hinv Hfuel; [lia|].
  rewrite search_loop_unfold.
  destruct (sectionsToSearch !! i) as [p|] eqn:Hi.
  - assert (p ∈ sectionsToSearch) as Hp_in by by eapply list_elem_of_lookup_2.
    destruct (invariant_section _ _ _ _ _ _ _ _ p Hinv Hp_in)
      as (section & s0 & Hp & Hp0 & Hchildren).
    rewrite Hp. apply IH; [by apply invariant_step|].
    unfold pending_size in *.
    rewrite (drop_S _ p) in Hfuel by done. simpl in Hfuel.
    rewrite drop_app_le by (apply lookup_lt_Some in Hi; lia).
    rewrite sum_list_with_app, <- Hchildren.
    rewrite (size_at_children _ _ s0) in Hfuel by done. lia.
  - eexists. split; [done|]. simpl.
    apply (invariant_take _ _ _ _ _ i); [|done].
    apply lookup_ge_None in Hi. by rewrite !take_ge by lia.
Qed.

(** The search of a document always runs to its end. *)
Lemma run_search_spec language searchTerms store0 :
  ∃ r,
    run_search language searchTerms store0 = Some r
    ∧ loop_invariant language searchTerms store0 (run_store r)
        (run_sectionsToSearch r) (length (run_sectionsToSearch r))
        (run_links r) (run_categories r).
Proof.
  apply search_loop_spec; [apply invariant_init|].
  unfold pending_size. rewrite drop_0, size_roots. lia.
Qed.

(** At the end every section of the document has been searched. *)
Lemma invariant_complete language searchTerms store0 store
    (sectionsToSearch : list (list nat))
    (links categories : list (SearchResult Name)) p :
  loop_invariant language searchTerms store0 store sectionsToSearch
    (length sectionsToSearch) links categories →
  is_Some (get store0 p) → p ∈ sectionsToSearch.
Proof.
  intros Hinv. pose proof (inv_list _ _ _ _ _ _ _ _ Hinv) as Hlist.
  rewrite take_ge in Hlist by done.
  induction p as [|j p IH] using rev_ind; intros [c Hc]; [done|].
  rewrite Hlist. apply elem_of_app.
  destruct (decide (p = [])) as [->|Hp].
  - left. apply elem_of_refs_below. exists j. split; [|done].
    change ([] ++ [j]) with [j] in Hc. rewrite get_root in Hc.
    by eapply lookup_lt_Some.
  - right. destruct (get store0 p) as [s|] eqn:Hs; cycle 1.
    { by rewrite get_snoc_None in Hc. }
    apply list_elem_of_bind. exists p. split; [|by apply IH].
    unfold children_refs. rewrite Hs. apply elem_of_refs_below.
    exists j. split; [|done].
    rewrite (get_snoc _ _ _ s) in Hc by done. by eapply lookup_lt_Some.
Qed.

(** *** What the results say *)

Lemma bind_concat {A B} (f : A → list B) (l : list A) :
  l ≫= f = concat (f <$> l).
Proof. induction l as [|x l IH]; [done|]. csimpl. by rewrite IH. Qed.

Lemma name_matches_substring searchTerms (n : string) :
  name_matches searchTerms n = true ↔ substring_of searchTerms (toUpperCase n).
Proof. unfold name_matches. by rewrite Z.leb_le, indexOf_found. Qed.

Lemma Forall2_blocks {A B} (P : A → B → Prop) (f : A → B) (l : list A) :
  (∀ x, x ∈ l → P x (f x)) → Forall2 P l (f <$> l).
Proof.
  intros H. apply Forall2_fmap_r, Forall_Forall2_diag, Forall_forall.
  intros x Hx. by apply H.
Qed.

Lemma run_search_end language searchTerms (linkSections : list (LinkSection Name)) :
  ∃ r,
    run_search language searchTerms linkSections = Some r
    ∧ loop_invariant language searchTerms linkSections (run_store r)
        (run_sectionsToSearch r) (length (run_sectionsToSearch r))
        (run_links r) (run_categories r)
    ∧ (∀ p, is_Some (get linkSections p) → p ∈ run_sectionsToSearch r)
    ∧ run_links r
      = concat (links_of language searchTerms linkSections
                  <$> run_sectionsToSearch r)
    ∧ run_categories r
      = concat (categories_of language searchTerms linkSections
                  <$> run_sectionsToSearch r).
Proof.
  destruct (run_search_spec language searchTerms linkSections) as (r & Hrun & Hinv).
  exists r. split_and!; [done | done | ..].
  - intros p. by eapply invariant_complete.
  - rewrite (inv_links _ _ _ _ _ _ _ _ Hinv), take_ge by done. apply bind_concat.
  - rewrite (inv_categories _ _ _ _ _ _ _ _ Hinv), take_ge by done.
    apply bind_concat.
Qed.



(** C4: the work list is the references to the roots followed by the
    references to the categories of every searched section, in the order
    the sections are searched; so a category stands after its parent and
    the sections of every depth are searched.  A section whose name
    matches contributes one category result whose id is the dash-joined
    chain of the ids of its ancestors and itself; at the third level that
    is root id, dash, middle id, dash, leaf id. *)
Theorem nested_sections_are_searched language searchTerms
    (linkSections : list (LinkSection Name)) :
  ∃ r blocks,
    run_search language searchTerms linkSections = Some r
    ∧ run_sectionsToSearch r
      = refs_below [] (length linkSections)
        ++ (run_sectionsToSearch r ≫= children_refs linkSections)
    ∧ (∀ p, is_Some (get linkSections p) → p ∈ run_sectionsToSearch r)
    ∧ (∀ k p j,
         run_sectionsToSearch r !! k = Some (p ++ [j]) → p ≠ [] →
         ∃ k', k' < k ∧ run_sectionsToSearch r !! k' = Some p)
    ∧ run_categories r = concat blocks
    ∧ Forall2
        (λ p block, ∀ section,
           get linkSections p = Some section →
           substring_of searchTerms
             (toUpperCase (translated_or_empty language (name section))) →
           ∃ result,
             block = [result]
             ∧ data result = SectionId (chain_id linkSections p))
        (run_sectionsToSearch r) blocks
    ∧ (∀ (a b c : nat) root mid leaf,
         get linkSections [a] = Some root →
         get linkSections [a; b] = Some mid →
         get linkSections [a; b; c] = Some leaf →
         chain_id linkSections [a; b; c]
         = id root +:+ "-" +:+ id mid +:+ "-" +:+ id leaf).
Proof.
  destruct (run_search_end language searchTerms linkSections)
    as (r & Hrun & Hinv & Hall & _ & Hcats).
  exists r, (categories_of language searchTerms linkSections
               <$> run_sectionsToSearch r).
  split_and!; [done | | done | | done | |].
  - pose proof (inv_list _ _ _ _ _ _ _ _ Hinv) as Hlist.
    by rewrite take_ge in Hlist.
  - intros k p j Hk Hp.
    pose proof (inv_parent_first _ _ _ _ _ _ _ _ Hinv k p j Hk Hp) as Hin.
    apply elem_of_take in Hin as (k' & Hk' & Hlt). by exists k'.
  - apply Forall2_blocks. intros p _ section Hsection Hmatch.
    unfold categories_of. rewrite Hsection. simpl. unfold emitted_category.
    cbv zeta. apply name_matches_substring in Hmatch. rewrite Hmatch.
    by eexists.
  - intros a b c root mid leaf Hroot Hmid Hleaf.
    rewrite (chain_id_snoc _ [a; b] c mid leaf) by done.
    rewrite (chain_id_snoc _ [a] b root mid) by done.
    rewrite (chain_id_root _ a root) by done.
    by rewrite !string_app_assoc.
Qed.

(** *** What the search writes *)

Lemma run_search_ids language searchTerms (store0 : list (LinkSection Name)) :
  ∃ r,
    run_search language searchTerms store0 = Some r
    ∧ (∀ p, other_fields_at (run_store r) p = other_fields_at store0 p)
    ∧ (∀ j, id_at (run_store r) [j] = id_at store0 [j])
    ∧ (∀ p j sub,
         p ≠ [] → id_at store0 (p ++ [j]) = Some sub →
         ∃ parent,
           id_at (run_store r) p = Some parent
           ∧ id_at (run_store r) (p ++ [j]) = Some (parent +:+ "-" +:+ sub)).
Proof.
  destruct (run_search_end language searchTerms store0)
    as (r & Hrun & Hinv & Hall & _ & _).
  pose proof (inv_other_fields _ _ _ _ _ _ _ _ Hinv) as Hother.
  pose proof (inv_id_listed _ _ _ _ _ _ _ _ Hinv) as Hlisted.
  exists r. split_and!; [done | done | |].
  - intros j. destruct (get store0 [j]) as [s|] eqn:Hs.
    + rewrite Hlisted by (apply Hall; by rewrite Hs).
      unfold id_at. rewrite Hs. simpl. by rewrite (chain_id_root _ _ s).
    + unfold id_at. rewrite Hs.
      destruct (get (run_store r) [j]) eqn:Hr; [|done].
      destruct (other_fields_at_is_Some _ _ _ (Hother [j])) as [H _].
      rewrite Hs, Hr in H. destruct H as [? ?]; [by eexists | done].
  - intros p j sub Hp Hsub. unfold id_at in Hsub.
    destruct (get store0 (p ++ [j])) as [c|] eqn:Hc; [|done].
    simpl in Hsub. injection Hsub as <-.
    destruct (get store0 p) as [s|] eqn:Hs; cycle 1.
    { by rewrite get_snoc_None in Hc. }
    exists (chain_id store0 p). split.
    + apply Hlisted, Hall. by rewrite Hs.
    + rewrite Hlisted by (apply Hall; by rewrite Hc).
      by rewrite (chain_id_snoc _ _ _ s c).
Qed.

Lemma string_length_app (a b : string) :
  String.length (a +:+ b) = String.length a + String.length b.
Proof.
  induction a as [|x a IH]; [done|].
  change (S (String.length (a +:+ b)) = S (String.length a + String.length b)).
  by rewrite IH.
Qed.

(** C7: one search leaves the name, icon, links, social entries and
    number of categories of every section as they were, leaves the ids of
    the roots as they were, and gives every category the id of its parent
    (as the search left it), a dash, and its former id.  A second search
    on the same objects prefixes the id of every category once more, so
    the id it leaves differs from the one the first search left. *)
Theorem search_rewrites_only_category_ids language searchTerms searchTerms'
    (linkSections : list (LinkSection Name)) :
  ∃ r r',
    run_search language searchTerms linkSections = Some r
    ∧ (∀ p, other_fields_at (run_store r) p = other_fields_at linkSections p)
    ∧ (∀ j, id_at (run_store r) [j] = id_at linkSections [j])
    ∧ (∀ p j sub,
         p ≠ [] → id_at linkSections (p ++ [j]) = Some sub →
         ∃ parent,
           id_at (run_store r) p = Some parent
           ∧ id_at (run_store r) (p ++ [j]) = Some (parent +:+ "-" +:+ sub))
    ∧ run_search language searchTerms' (run_store r) = Some r'
    ∧ (∀ p, other_fields_at (run_store r') p = other_fields_at linkSections p)
    ∧ (∀ j, id_at (run_store r') [j] = id_at linkSections [j])
    ∧ (∀ p j sub,
         p ≠ [] → id_at linkSections (p ++ [j]) = Some sub →
         ∃ parent parent',
           id_at (run_store r) p = Some parent
           ∧ id_at (run_store r') p = Some parent'
           ∧ id_at (run_store r') (p ++ [j])
             = Some (parent' +:+ "-" +:+ parent +:+ "-" +:+ sub)
           ∧ id_at (run_store r') (p ++ [j]) ≠ id_at (run_store r) (p ++ [j])).
Proof.
  destruct (run_search_ids language searchTerms linkSections)
    as (r & Hrun & Hother & Hroots & Hsubs).
  destruct (run_search_ids language searchTerms' (run_store r))
    as (r' & Hrun' & Hother' & Hroots' & Hsubs').
  exists r, r'. split_and!; [done..| | |].
  - intros p. by rewrite Hother'.
  - intros j. by rewrite Hroots'.
  - intros p j sub Hp Hsub.
    destruct (Hsubs p j sub Hp Hsub) as (parent & Hparent & Hid).
    destruct (Hsubs' p j _ Hp Hid) as (parent' & Hparent' & Hid').
    exists parent, parent'. split_and!; [done..|].
    rewrite Hid, Hid'. intros [= H]. apply (f_equal String.length) in H.
    set (x := parent +:+ "-" +:+ sub) in H.
    rewrite !string_length_app in H. simpl in H. lia.
Qed.

(** *** Every result has a term the query occurs in *)

Lemma emitted_links_matching language searchTerms s (r : SearchResult Name) :
  r ∈ emitted_links language searchTerms s → has_matching_term searchTerms r.
Proof.
  unfold emitted_links. cbv zeta.
  destruct (name_matches searchTerms (translated_or_empty language (name s)))
    eqn:Hmatch.
  - apply name_matches_substring in Hmatch.
    rewrite elem_of_app, !list_elem_of_fmap.
    intros [(link & -> & _)|(link & -> & _)];
      exists (toUpperCase (translated_or_empty language (name s))),
             (translated_or_empty language (name s));
      (split_and!; [simpl; by left | done | done]).
  - rewrite elem_of_app, !list_elem_of_fmap.
    intros [(link & -> & Hin)|(link & -> & Hin)];
      apply list_elem_of_filter in Hin as [Hown _];
      apply name_matches_substring in Hown;
      exists (toUpperCase (translated_or_empty language (link_name link))),
             (translated_or_empty language (link_name link));
      (split_and!; [simpl; by left | done | done]).
Qed.

Lemma emitted_category_matching language searchTerms (i : string) s
    (r : SearchResult Name) :
  r ∈ emitted_category language searchTerms i s →
  has_matching_term searchTerms r.
Proof.
  unfold emitted_category. cbv zeta.
  destruct (name_matches searchTerms (translated_or_empty language (name s)))
    eqn:Hmatch; [|by rewrite elem_of_nil].
  apply name_matches_substring in Hmatch.
  rewrite list_elem_of_singleton. intros ->.
  exists (toUpperCase (translated_or_empty language (name s))),
         (translated_or_empty language (name s)).
  split_and!; [simpl; by left | done | done].
Qed.

Lemma run_search_matching language searchTerms
    (linkSections : list (LinkSection Name)) (r : Run Name) :
  run_search language searchTerms linkSections = Some r →
  Forall (has_matching_term searchTerms) (run_links r)
  ∧ Forall (has_matching_term searchTerms) (run_categories r).
Proof.
  intros Hrun.
  destruct (run_search_spec language searchTerms linkSections) as (r' & Hrun' & Hinv).
  assert (r' = r) as -> by congruence.
  rewrite (inv_links _ _ _ _ _ _ _ _ Hinv), (inv_categories _ _ _ _ _ _ _ _ Hinv).
  split; apply Forall_forall; intros x Hx;
    apply list_elem_of_bind in Hx as (p & Hx & _).
  - unfold links_of in Hx. destruct (get linkSections p); simpl in Hx.
    + by eapply emitted_links_matching.
    + by apply elem_of_nil in Hx.
  - unfold categories_of in Hx. destruct (get linkSections p); simpl in Hx.
    + by eapply emitted_category_matching.
    + by apply elem_of_nil in Hx.
Qed.

(** C9, as the code has it: the result object of [_getResults] is the
    empty object with the link results assigned under the label of the
    external links and then the category results under the label of the
    useful links, where an assignment under the label '__proto__' adds no
    key.  Its keys are the labels other than '__proto__'.  With two
    different such labels it holds both lists; with one and the same label,
    other than '__proto__', the second assignment replaces the first, and
    the object has that single key, bound to the category results; with
    '__proto__' for both labels it has no key at all. *)
Theorem results_object_last_write_wins language searchTerms
    (linkSections : list (LinkSection Name)) :
  ∃ r results,
    run_search language searchTerms linkSections = Some r
    ∧ _getResults language searchTerms linkSections = Some (run_store r, results)
    ∧ results
      = JsObject.assign (useful_links (getTranslations language)) (run_categories r)
          (JsObject.assign (external_links (getTranslations language)) (run_links r) ∅)
    ∧ dom results
      = {[ external_links (getTranslations language);
           useful_links (getTranslations language) ]} ∖ {[ "__proto__" ]}
    ∧ (useful_links (getTranslations language) ≠ "__proto__" →
       results !! useful_links (getTranslations language)
       = Some (run_categories r))
    ∧ (external_links (getTranslations language)
         ≠ useful_links (getTranslations language) →
       external_links (getTranslations language) ≠ "__proto__" →
       results !! external_links (getTranslations language)
       = Some (run_links r)
       ∧ (useful_links (getTranslations language) ≠ "__proto__" →
          size results = 2))
    ∧ (external_links (getTranslations language)
         = useful_links (getTranslations language) →
       useful_links (getTranslations language) ≠ "__proto__" →
       results = {[ useful_links (getTranslations language) := run_categories r ]}
       ∧ size results = 1)
    ∧ (external_links (getTranslations language) = "__proto__" →
       useful_links (getTranslations language) = "__proto__" →
       results = ∅).
Proof.
  destruct (run_search_spec language searchTerms linkSections) as (r & Hrun & _).
  exists r, (build_results language (run_links r) (run_categories r)).
  unfold _getResults, build_results. rewrite Hrun. cbv zeta.
  split_and!; [done | done | done | | | | |].
  - rewrite !dom_assign, dom_empty_L. set_solver.
  - intros Huseful. by apply lookup_assign_eq.
  - intros Hne Hext. split.
    + by rewrite lookup_assign_ne, lookup_assign_eq.
    + intros Huseful. rewrite !assign_ordinary by done.
      rewrite !map_size_insert_None, map_size_empty; [done | done |].
      by rewrite lookup_insert_ne.
  - intros -> Huseful. rewrite assign_assign, assign_ordinary by done.
    rewrite insert_empty. split; [done|]. apply map_size_singleton.
  - by intros -> ->.
Qed.

End SearchFacts.

(** ** getResults *)

Section GetResultsFacts.
Context {Name : Type} `{TU : !TranslationUtils Name} {Err : Type}.
Import JsString JsStringFacts JsObjectFacts.

Implicit Types (Config : Configuration Name Err) (language : Language).

Lemma nonempty_length (rawQuery : string) :
  rawQuery ≠ "" → String.length rawQuery ≠ 0.
Proof. by destruct rawQuery. Qed.

(** What [getResults] does with a query that is not empty. *)
Lemma getResults_nonempty Config language (rawQuery : string) :
  rawQuery ≠ "" →
  getResults Config language (Some rawQuery)
  = match config_init Config with
    | inl err => ([InitCalled; ConsoleError (Some err)], Rejected (Some err))
    | inr _ =>
        match config_getConfig Config "/useful_links.json" with
        | inl err =>
            ([InitCalled; GetConfigCalled "/useful_links.json";
              ConsoleError (Some err)],
             Rejected (Some err))
        | inr linkSections =>
            match _getResults language (toUpperCase rawQuery) linkSections with
            | Some (_, results) =>
                ([InitCalled; GetConfigCalled "/useful_links.json"],
                 Resolved results)
            | None =>
                ([InitCalled; GetConfigCalled "/useful_links.json";
                  ConsoleError None],
                 Rejected None)
            end
        end
    end.
Proof.
  intros H. unfold getResults.
  by rewrite decide_False by by apply nonempty_length.
Qed.

(** C3, as the code has it: with a query that is null or empty the
    promise resolves with the empty object, which has neither label as a
    key, and the configuration is not called. *)
Theorem empty_query_resolves_empty_object Config language
    (rawQuery : option string) :
  rawQuery = None ∨ rawQuery = Some "" →
  getResults Config language rawQuery = ([], Resolved ∅)
  ∧ (∅ : gmap string (list (SearchResult Name)))
      !! external_links (getTranslations language) = None
  ∧ (∅ : gmap string (list (SearchResult Name)))
      !! useful_links (getTranslations language) = None.
Proof. intros [-> | ->]; done. Qed.

(** C5: when the query is not empty and the search resolves, every result
    pushed to either of the two lists, and so every result of every list of
    the result object, has among its matched terms an uppercased string in
    which the uppercased query occurs. *)
Theorem results_carry_a_matching_term Config language (rawQuery : string) :
  rawQuery ≠ "" →
  match (getResults Config language (Some rawQuery)).2 with
  | Resolved results =>
      ∃ linkSections r,
        config_getConfig Config "/useful_links.json" = inr linkSections
        ∧ run_search language (toUpperCase rawQuery) linkSections = Some r
        ∧ results = build_results language (run_links r) (run_categories r)
        ∧ Forall (has_matching_term (toUpperCase rawQuery)) (run_links r)
        ∧ Forall (has_matching_term (toUpperCase rawQuery)) (run_categories r)
        ∧ ∀ label rs,
            results !! label = Some rs →
            Forall (has_matching_term (toUpperCase rawQuery)) rs
  | Rejected _ => True
  end.
Proof.
  intros Hq. rewrite getResults_nonempty by done.
  destruct (config_init Config) as [err|_]; [done|].
  destruct (config_getConfig Config "/useful_links.json") as [err|linkSections];
    [done|].
  unfold _getResults.
  destruct (run_search language (toUpperCase rawQuery) linkSections) as [r|]
    eqn:Hrun; [|done].
  simpl. destruct (run_search_matching _ _ _ _ Hrun) as [Hlinks Hcats].
  exists linkSections, r. split_and!; [done..|].
  intros label rs Hrs.
  unfold build_results in Hrs. cbv zeta in Hrs.
  apply lookup_assign_Some in Hrs as [(_ & _ & <-)|Hrs]; [done|].
  apply lookup_assign_Some in Hrs as [(_ & _ & <-)|Hrs]; done.
Qed.


End GetResultsFacts.

(** ** DisplayUtils.js *)

Module DisplayUtilsFacts.
Import JsString JsStringFacts DisplayUtils.

Lemma helpers_depend_on_lower (s t : string) :
  toLowerCase s = toLowerCase t →
  getSocialMediaIconName s = getSocialMediaIconName t
  ∧ getSocialMediaIconColor s = getSocialMediaIconColor t.
Proof.
  intros H. unfold getSocialMediaIconName, getSocialMediaIconColor.
  by rewrite H.
Qed.

Lemma known_platform_lookup (s platform icon color : string) :
  (platform, (icon, color)) ∈ known_platforms →
  toLowerCase s = platform →
  getSocialMediaIconName s = icon ∧ getSocialMediaIconColor s = color.
Proof.
  intros Hin Hs. unfold getSocialMediaIconName, getSocialMediaIconColor.
  rewrite Hs. clear Hs. unfold known_platforms in Hin.
  repeat (apply elem_of_cons in Hin as [[= -> -> ->]|Hin]; [done|]).
  by apply elem_of_nil in Hin.
Qed.

Lemma unknown_platform_lookup (s : string) :
  toLowerCase s ∉ known_platforms.*1 →
  getSocialMediaIconName s = fallback_icon
  ∧ getSocialMediaIconColor s = fallback_color.
Proof.
  intros Hnot. unfold getSocialMediaIconName, getSocialMediaIconColor.
  cbv zeta. repeat case_decide;
    try (exfalso; apply Hnot; match goal with H : toLowerCase s = _ |- _ =>
                                rewrite H end; set_solver).
  done.
Qed.

(** The names of the table are in lower case. *)
Lemma known_platforms_lower (platform icon color : string) :
  (platform, (icon, color)) ∈ known_platforms → toLowerCase platform = platform.
Proof.
  intros Hin. unfold known_platforms in Hin.
  repeat (apply elem_of_cons in Hin as [[= -> -> ->]|Hin]; [done|]).
  by apply elem_of_nil in Hin.
Qed.

(** C8: the two helpers are functions of the platform name, and of the
    name they see only what [toLowerCase] makes of it: two names with the
    same lowercase form, and so two names that differ only in the case of
    their letters, get the same icon and colour.  A name whose lowercase
    form is one of the six known platforms, and so a known platform
    written in any mix of cases, gets that platform's icon and colour;
    every other name gets the icon 'android-open' and the colour
    '#000000'. *)
Theorem social_media_helpers_lookup (s : string) :
  (∀ t, toLowerCase t = toLowerCase s →
        getSocialMediaIconName t = getSocialMediaIconName s
        ∧ getSocialMediaIconColor t = getSocialMediaIconColor s)
  ∧ (∀ t, eq_ignore_case s t = true →
          getSocialMediaIconName t = getSocialMediaIconName s
          ∧ getSocialMediaIconColor t = getSocialMediaIconColor s)
  ∧ (∀ platform icon color,
       (platform, (icon, color)) ∈ known_platforms →
       toLowerCase s = platform ∨ eq_ignore_case s platform = true →
       getSocialMediaIconName s = icon
       ∧ getSocialMediaIconColor s = color)
  ∧ ((∃ platform icon color,
        (platform, (icon, color)) ∈ known_platforms
        ∧ toLowerCase s = platform
        ∧ getSocialMediaIconName s = icon
        ∧ getSocialMediaIconColor s = color)
     ∨ ((toLowerCase s ∉ known_platforms.*1)
        ∧ getSocialMediaIconName s = "android-open"
        ∧ getSocialMediaIconColor s = "#000000")).
Proof.
  split_and!.
  - intros t Ht. by apply helpers_depend_on_lower.
  - intros t Ht. apply eq_ignore_case_lower in Ht.
    by apply helpers_depend_on_lower.
  - intros platform icon color Hin [Hs|Hs].
    + by apply (known_platform_lookup s platform).
    + apply (known_platform_lookup s platform); [done|].
      apply eq_ignore_case_lower in Hs.
      by rewrite Hs, (known_platforms_lower platform icon color).
  - destruct (decide (toLowerCase s ∈ known_platforms.*1)) as [Hin|Hnot].
    + left. apply list_elem_of_fmap in Hin as [[platform [icon color]] [Hs Hin]].
      simpl in Hs. exists platform, icon, color.
      split; [done|]. split; [done|].
      by apply (known_platform_lookup s platform).
    + right. split; [done|]. by apply unknown_platform_lookup.
Qed.

(** C10: the icon helper falls back to 'android-open' exactly when the
    colour helper falls back to '#000000'. *)
Theorem fallback_icon_iff_fallback_color (s : string) :
  getSocialMediaIconName s = "android-open"
  ↔ getSocialMediaIconColor s = "#000000".
Proof.
  unfold getSocialMediaIconName, getSocialMediaIconColor. cbv zeta.
  repeat case_decide; done.
Qed.

End DisplayUtilsFacts.

(** ** The search on the sample documents *)

Module SampleFacts.
Import JsString JsObjectFacts Sample.

(** The query "wifi" on a section without a name and with the link
    "Wifi Help". *)
Example wifi_search :
  (getResults
     {| config_init := inr (); config_getConfig := λ _, (inr wifi : string + _) |}
     en (Some "wifi")).2
  = Resolved
      (<["Useful links" := []]>
         (<["External links" :=
              [ {| description := "";
                   data := LinkData {| link_name := "Wifi Help"; link_url := "w" |};
                   result_icon :=
                     Some {| icon_name := "md-open"; icon_class := "ionicon" |};
                   matchedTerms := ["WIFI HELP"];
                   title := "Wifi Help" |} ]]> ∅)).
Proof. reflexivity. Qed.

(** The query "housing" on the section "Housing" with the link "Leases". *)
Example housing_search :
  run_search en "HOUSING" housing
  = Some
      {| run_store := housing;
         run_sectionsToSearch := [[0]];
         run_links :=
           [ {| description := "Housing";
                data := LinkData {| link_name := "Leases"; link_url := "l" |};
                result_icon :=
                  Some {| icon_name := "md-open"; icon_class := "ionicon" |};
                matchedTerms := ["HOUSING"; "LEASES"];
                title := "Leases" |} ];
         run_categories :=
           [ {| description := "See related links";
                data := SectionId "a";
                result_icon := None;
                matchedTerms := ["HOUSING"];
                title := "Housing" |} ] |}.
Proof. reflexivity. Qed.

(** The order of the search on [events], and the ids after one and after
    two searches. *)
Example events_search_order :
  run_sectionsToSearch <$> run_search en "DEADLINES" events
  = Some [[0]; [1]; [0; 0]; [0; 1]; [0; 0; 0]; [0; 0; 1]].
Proof. reflexivity. Qed.

Example events_deadlines_id :
  (λ r, data <$> run_categories r) <$> run_search en "DEADLINES" events
  = Some [SectionId "events-academic-deadlines"].
Proof. reflexivity. Qed.

Example events_searched_twice :
  (run_search en "X" events ≫= λ r, run_search en "X" (run_store r))
    ≫= (λ r', id_at (run_store r') [0; 0; 0])
  = Some "events-events-academic-events-academic-deadlines".
Proof. reflexivity. Qed.

(** C3 as the specification words it fails: the object the promise
    resolves with for a null query does not have the label of the external
    links as a key bound to an empty list. *)
Lemma empty_query_has_no_labels :
  ¬ ∃ results,
      (getResults config en None).2 = Resolved results
      ∧ results !! external_links (getTranslations en) = Some []
      ∧ results !! useful_links (getTranslations en) = Some [].
Proof. intros (results & [= <-] & H & _). done. Qed.

(** The theorems above at work on the samples. *)

Lemma empty_query_resolves_empty_object_witness :
  ((None : option string) = None ∨ None = Some "")
  ∧ getResults config en None = ([], Resolved ∅)
  ∧ (∅ : gmap string (list (SearchResult string)))
      !! external_links (getTranslations en) = None
  ∧ (∅ : gmap string (list (SearchResult string)))
      !! useful_links (getTranslations en) = None.
Proof.
  split; [by left|].
  apply (empty_query_resolves_empty_object config en None). by left.
Defined.

(** The query "e" on [events] resolves, and its results carry the term. *)
Lemma results_carry_a_matching_term_witness :
  "e" ≠ ""
  ∧ ∃ results,
      (getResults config en (Some "e")).2 = Resolved results
      ∧ ∀ label rs,
          results !! label = Some rs →
          Forall (has_matching_term (toUpperCase "e")) rs.
Proof.
  assert ("e" ≠ "") as H by done.
  split; [done|].
  pose proof (results_carry_a_matching_term config en "e" H) as Hall.
  destruct (getResults config en (Some "e")).2 as [results|err] eqn:Hres.
  - exists results. split; [done|].
    destruct Hall as (sections & r & _ & _ & _ & _ & _ & Hlabels). exact Hlabels.
  - vm_compute in Hres. discriminate Hres.
Defined.





(** On [events] the match at the third level carries the chained id. *)
Lemma nested_sections_are_searched_witness :
  ∃ r result,
    run_search en "DEADLINES" events = Some r
    ∧ In result (run_categories r)
    ∧ data result = SectionId "events-academic-deadlines".
Proof.
  destruct (nested_sections_are_searched en "DEADLINES" events)
    as (r & blocks & Hrun & _ & Hall & _ & Hcats & Hblocks & Hchain).
  assert ([0; 0; 0] ∈ run_sectionsToSearch r) as Hin by by apply Hall.
  apply list_elem_of_lookup_1 in Hin as [k Hk].
  destruct (Forall2_lookup_l _ _ _ _ _ Hblocks Hk) as (block & Hblock & Hresult).
  specialize (Hresult _ eq_refl).
  assert (substring_of "DEADLINES" (toUpperCase "Deadlines")) as Hmatch
    by by exists "", "".
  destruct (Hresult Hmatch) as (result & -> & Hdata).
  exists r, result. split_and!; [done | |].
  - rewrite Hcats. apply in_concat. exists [result]. split; [|by left].
    apply list_elem_of_In. by eapply list_elem_of_lookup_2.
  - by rewrite Hdata, (Hchain 0 0 0 _ _ _ eq_refl eq_refl eq_refl).
Defined.

(** On [events] a second search prefixes the id of a category again. *)
Lemma search_rewrites_only_category_ids_witness :
  ∃ r r',
    run_search en "X" events = Some r
    ∧ run_search en "Y" (run_store r) = Some r'
    ∧ id_at (run_store r) [0; 0] = Some "events-academic"
    ∧ id_at (run_store r') [0; 0] = Some "events-events-academic".
Proof.
  destruct (search_rewrites_only_category_ids en "X" "Y" events)
    as (r & r' & Hrun & _ & Hroots & Hsubs & Hrun' & _ & Hroots' & Hsubs').
  assert (id_at events ([0] ++ [0]) = Some "academic") as Hsub by done.
  assert ([0] ≠ []) as Hne by done.
  exists r, r'. split_and!; [done | done | |].
  - destruct (Hsubs [0] 0 _ Hne Hsub) as (parent & Hparent & Hid).
    rewrite Hroots in Hparent. injection Hparent as <-. exact Hid.
  - destruct (Hsubs' [0] 0 _ Hne Hsub) as (parent & parent' & Hparent & Hparent' & Hid & _).
    rewrite Hroots in Hparent. injection Hparent as <-.
    rewrite Hroots' in Hparent'. injection Hparent' as <-. exact Hid.
Defined.

(** C9 as the specification words it fails for the label '__proto__': with
    that one string for both labels the object does not have a single key
    bound to the category results, it has no key. *)
Lemma proto_label_leaves_no_key :
  external_links (getTranslations (TranslationUtils := proto_labels) en)
  = useful_links (getTranslations (TranslationUtils := proto_labels) en)
  ∧ ¬ ∃ r results,
        run_search (TU := proto_labels) en "E" events = Some r
        ∧ _getResults (TU := proto_labels) en "E" events
          = Some (run_store r, results)
        ∧ results
          = {[ useful_links (getTranslations (TranslationUtils := proto_labels) en)
               := run_categories r ]}.
Proof.
  split; [done|]. intros (r & results & Hrun & Hget & Hresults).
  unfold _getResults in Hget. rewrite Hrun in Hget. simpl in Hget.
  assert (results !! "__proto__" = None) as Hnone.
  { injection Hget as <-. unfold build_results. cbv zeta. simpl.
    by rewrite !lookup_assign_proto. }
  rewrite Hresults in Hnone. simpl in Hnone.
  by rewrite lookup_singleton_eq in Hnone.
Qed.

(** With the table [colliding] the result object has the one key "Links". *)
Lemma results_object_last_write_wins_witness :
  ∃ r results,
    run_search (TU := colliding) en "E" events = Some r
    ∧ _getResults (TU := colliding) en "E" events = Some (run_store r, results)
    ∧ results = {[ "Links" := run_categories r ]}
    ∧ size results = 1.
Proof.
  destruct (results_object_last_write_wins (TU := colliding) en "E" events)
    as (r & results & Hrun & Hget & _ & _ & _ & _ & Hsame & _).
  exists r, results. split_and!; [done | done | by apply Hsame..].
Defined.

End SampleFacts.

(** * Further properties *)

(** ** The loop of the search, continued *)

Section MoreSearchFacts.
Context {Name : Type} `{TU : !TranslationUtils Name}.
Import JsString JsStringFacts.

Implicit Types (s c : LinkSection Name) (store : list (LinkSection Name)).
Implicit Types (p q : list nat) (language : Language) (searchTerms : string).

(** *** Fuel *)

Lemma search_loop_more_fuel (fuel : nat) language searchTerms store
    (sectionsToSearch : list (list nat)) (i : nat)
    (links categories : list (SearchResult Name)) (r : Run Name) :
  search_loop fuel language searchTerms store sectionsToSearch i
    links categories = Some r →
  search_loop (S fuel) language searchTerms store sectionsToSearch i
    links categories = Some r.
Proof.
  revert store sectionsToSearch i links categories.
  induction fuel as [|fuel IH];
    intros store sectionsToSearch i links categories H; [done|].
  rewrite search_loop_unfold in H. rewrite search_loop_unfold.
  destruct (sectionsToSearch !! i) as [p|]; [|done].
  destruct (get store p) as [section|]; [|done].
  by apply IH.
Qed.

Lemma search_loop_fuel_le (fuel fuel' : nat) language searchTerms store
    (sectionsToSearch : list (list nat)) (i : nat)
    (links categories : list (SearchResult Name)) (r : Run Name) :
  fuel ≤ fuel' →
  search_loop fuel language searchTerms store sectionsToSearch i
    links categories = Some r →
  search_loop fuel' language searchTerms store sectionsToSearch i
    links categories = Some r.
Proof.
  induction 1 as [|fuel' _ IH]; [done|].
  intros H. by apply search_loop_more_fuel, IH.
Qed.

Lemma search_loop_fuel_irrelevant (fuel fuel' : nat) language searchTerms store
    (sectionsToSearch : list (list nat)) (i : nat)
    (links categories : list (SearchResult Name)) (r r' : Run Name) :
  search_loop fuel language searchTerms store sectionsToSearch i
    links categories = Some r →
  search_loop fuel' language searchTerms store sectionsToSearch i
    links categories = Some r' →
  r = r'.
Proof.
  intros H H'. destruct (Nat.le_ge_cases fuel fuel') as [Hle|Hle].
  - apply (search_loop_fuel_le _ _ _ _ _ _ _ _ _ _ Hle) in H. congruence.
  - apply (search_loop_fuel_le _ _ _ _ _ _ _ _ _ _ Hle) in H'. congruence.
Qed.

(** *** Two stores that differ in ids only *)

Lemma same_but_ids_get store store' p section :
  same_but_ids store store' → get store p = Some section →
  ∃ section',
    get store' p = Some section' ∧ other_fields section = other_fields section'.
Proof.
  intros Hsame Hp. specialize (Hsame p). unfold other_fields_at in Hsame.
  rewrite Hp in Hsame. destruct (get store' p) as [section'|]; [|done].
  exists section'. split; [done|]. simpl in Hsame. congruence.
Qed.

Lemma emitted_category_same_but_data language searchTerms (i i' : string) s s' :
  other_fields s = other_fields s' →
  Forall2 same_but_data
    (emitted_category language searchTerms i s)
    (emitted_category language searchTerms i' s').
Proof.
  unfold other_fields, emitted_category. intros [= Hn Hi _ _ _].
  rewrite Hn, Hi.
  destruct (name_matches searchTerms (translated_or_empty language (name s')));
    by repeat constructor.
Qed.

(** The loop takes the same steps on two stores that differ in ids only:
    same work list, same link results, category results that differ at most
    in the id they carry. *)
Lemma search_loop_same_but_ids (fuel : nat) language searchTerms store store'
    (sectionsToSearch : list (list nat)) (i : nat)
    (links categories categories' : list (SearchResult Name)) (r : Run Name) :
  same_but_ids store store' →
  Forall2 same_but_data categories categories' →
  search_loop fuel language searchTerms store sectionsToSearch i
    links categories = Some r →
  ∃ r',
    search_loop fuel language searchTerms store' sectionsToSearch i
      links categories' = Some r'
    ∧ run_sectionsToSearch r' = run_sectionsToSearch r
    ∧ run_links r' = run_links r
    ∧ Forall2 same_but_data (run_categories r) (run_categories r')
    ∧ same_but_ids (run_store r) (run_store r').
Proof.
  revert store store' sectionsToSearch i links categories categories'.
  induction fuel as [|fuel IH];
    intros store store' sectionsToSearch i links categories categories'
      Hsame Hcats H; [done|].
  rewrite search_loop_unfold in H. rewrite search_loop_unfold.
  destruct (sectionsToSearch !! i) as [p|].
  - destruct (get store p) as [section|] eqn:Hp; [|done].
    destruct (same_but_ids_get _ _ _ _ Hsame Hp) as (section' & Hp' & Hfields).
    rewrite Hp'.
    rewrite <- (other_fields_arity _ _ Hfields).
    rewrite <- (emitted_links_other_fields _ _ _ _ Hfields).
    eapply IH; [| |exact H].
    + intros q.
      destruct (rewrite_ids_spec store p section
                  (length (subcategories section)) q Hp) as [-> _].
      destruct (rewrite_ids_spec store' p section'
                  (length (subcategories section)) q Hp') as [-> _].
      apply Hsame.
    + apply Forall2_app; [done|]. by apply emitted_category_same_but_data.
  - injection H as <-. eexists. by split_and!.
Qed.

(** X1: a search leaves the tree fit for later searches: whatever was
    searched for before, a search on the tree as the earlier search left
    it visits the sections in the same order as on the original tree and
    returns the same link results; its category results differ from those
    on the original tree at most in the section id they carry. *)
Theorem later_search_differs_in_ids_only language searchTerms searchTerms'
    (linkSections : list (LinkSection Name)) :
  ∃ r r1 r2,
    run_search language searchTerms linkSections = Some r
    ∧ run_search language searchTerms' linkSections = Some r1
    ∧ run_search language searchTerms' (run_store r) = Some r2
    ∧ run_sectionsToSearch r2 = run_sectionsToSearch r1
    ∧ run_links r2 = run_links r1
    ∧ Forall2 same_but_data (run_categories r1) (run_categories r2).
Proof.
  destruct (run_search_ids language searchTerms linkSections)
    as (r & Hrun & Hother & _ & _).
  destruct (run_search_spec language searchTerms' linkSections) as (r1 & Hrun1 & _).
  destruct (run_search_spec language searchTerms' (run_store r)) as (r2 & Hrun2 & _).
  assert (same_but_ids linkSections (run_store r)) as Hsame
    by (intros p; by rewrite Hother).
  assert (length (run_store r) = length linkSections) as Hlen.
  { apply Nat.le_antisymm; apply Nat.nlt_ge; intros Hlt.
    - pose proof (Hsame [length linkSections]) as H.
      unfold other_fields_at in H. rewrite !get_root in H.
      rewrite (lookup_ge_None_2 linkSections) in H by done.
      destruct (lookup_lt_is_Some_2 (run_store r) _ Hlt) as [x Hx].
      by rewrite Hx in H.
    - pose proof (Hsame [length (run_store r)]) as H.
      unfold other_fields_at in H. rewrite !get_root in H.
      rewrite (lookup_ge_None_2 (run_store r)) in H by done.
      destruct (lookup_lt_is_Some_2 linkSections _ Hlt) as [x Hx].
      by rewrite Hx in H. }
  unfold run_search in Hrun1, Hrun2. rewrite Hlen in Hrun2.
  assert (Forall2 (same_but_data (Name := Name)) [] []) as Hnil
    by by apply Forall2_nil.
  destruct (search_loop_same_but_ids _ _ _ _ _ _ _ _ _ _ _ Hsame Hnil Hrun1)
    as (r2' & Hrun2' & HQ & Hlinks & Hcats & _).
  pose proof (search_loop_fuel_irrelevant _ _ _ _ _ _ _ _ _ _ _ Hrun2' Hrun2) as ->.
  exists r, r1, r2. unfold run_search. rewrite Hlen. by split_and!.
Qed.

(** *** How often the body runs *)

Lemma search_loop_visits (fuel : nat) language searchTerms store0 store
    (sectionsToSearch : list (list nat)) (i : nat)
    (links categories : list (SearchResult Name)) (r : Run Name) :
  loop_invariant language searchTerms store0 store sectionsToSearch i
    links categories →
  i ≤ length sectionsToSearch →
  search_loop fuel language searchTerms store sectionsToSearch i
    links categories = Some r →
  length (run_sectionsToSearch r) = i + pending_size store0 sectionsToSearch i.
Proof.
  revert store sectionsToSearch i links categories.
  induction fuel as [|fuel IH];
    intros store sectionsToSearch i links categories Hinv Hi H; [done|].
  rewrite search_loop_unfold in H.
  destruct (sectionsToSearch !! i) as [p|] eqn:Hp.
  - assert (p ∈ sectionsToSearch) as Hp_in by by eapply list_elem_of_lookup_2.
    destruct (invariant_section _ _ _ _ _ _ _ _ p Hinv Hp_in)
      as (section & s0 & Hsection & Hs0 & Hchildren).
    rewrite Hsection in H.
    apply lookup_lt_Some in Hp as Hlt.
    apply IH in H; [| by apply invariant_step | rewrite length_app; lia].
    rewrite H. unfold pending_size.
    rewrite (drop_S _ p i) by done. simpl.
    rewrite drop_app_le by lia.
    rewrite sum_list_with_app, <- Hchildren.
    rewrite (size_at_children _ _ s0) by done. lia.
  - injection H as <-. simpl. apply lookup_ge_None in Hp.
    unfold pending_size. rewrite drop_ge by done. simpl. lia.
Qed.

Lemma length_concat_le {A B} (f : A → list B) (l : list A) :
  (∀ x, length (f x) ≤ 1) → length (concat (f <$> l)) ≤ length l.
Proof.
  intros H. induction l as [|x l IH]; [done|]. csimpl.
  rewrite length_app. specialize (H x). lia.
Qed.

(** X2: the body of the loop runs once for each section of the tree: the
    work list ends with as many references as the tree has sections, and
    there are at most that many category results. *)
Theorem search_visits_each_section_once language searchTerms
    (linkSections : list (LinkSection Name)) :
  ∃ r,
    run_search language searchTerms linkSections = Some r
    ∧ length (run_sectionsToSearch r) = forest_size linkSections
    ∧ NoDup (run_sectionsToSearch r)
    ∧ length (run_categories r) ≤ forest_size linkSections.
Proof.
  destruct (run_search_end language searchTerms linkSections)
    as (r & Hrun & Hinv & _ & _ & Hcats).
  assert (length (run_sectionsToSearch r) = forest_size linkSections) as Hlen.
  { unfold run_search in Hrun.
    apply (search_loop_visits _ _ _ linkSections) in Hrun;
      [| apply invariant_init | lia].
    rewrite Hrun. unfold pending_size. by rewrite drop_0, size_roots. }
  exists r. split_and!; [done | done | by eapply inv_nodup |].
  rewrite Hcats, <- Hlen. apply length_concat_le.
  intros p. unfold categories_of. destruct (get linkSections p); simpl; [|lia].
  unfold emitted_category. cbv zeta.
  destruct (name_matches _ _); simpl; lia.
Qed.

(** *** Where the results come from *)

Lemma elem_of_emitted_links language searchTerms s (result : SearchResult Name) :
  result ∈ emitted_links language searchTerms s →
  ∃ link,
    data result = LinkData link
    ∧ title result = translated_or_empty language (link_name link)
    ∧ description result = translated_or_empty language (name s)
    ∧ ((link ∈ default [] (links s)
        ∧ result_icon result
          = Some {| icon_name := "md-open"; icon_class := "ionicon" |})
       ∨ (link ∈ default [] (social s)
          ∧ result_icon result
            = Some {| icon_name :=
                        DisplayUtils.getSocialMediaIconName
                          (default "" (getEnglishName (link_name link)));
                      icon_class := "ionicon" |})).
Proof.
  unfold emitted_links. cbv zeta.
  destruct (name_matches searchTerms (translated_or_empty language (name s)));
    rewrite elem_of_app, !list_elem_of_fmap;
    intros [(link & -> & Hin)|(link & -> & Hin)];
    try apply list_elem_of_filter in Hin as [_ Hin];
    exists link; split_and!; try done; first [by left | by right].
Qed.

Lemma elem_of_run_links language searchTerms
    (linkSections : list (LinkSection Name)) (r : Run Name)
    (result : SearchResult Name) :
  loop_invariant language searchTerms linkSections (run_store r)
    (run_sectionsToSearch r) (length (run_sectionsToSearch r))
    (run_links r) (run_categories r) →
  result ∈ run_links r →
  ∃ p section,
    get linkSections p = Some section
    ∧ result ∈ emitted_links language searchTerms section.
Proof.
  intros Hinv Hin. rewrite (inv_links _ _ _ _ _ _ _ _ Hinv) in Hin.
  apply list_elem_of_bind in Hin as (p & Hin & _).
  unfold links_of in Hin. destruct (get linkSections p) as [section|] eqn:Hp.
  - by exists p, section.
  - by apply elem_of_nil in Hin.
Qed.

(** X3: no result is made up.  Every link result carries a link or social
    entry of a section of the tree, has that entry's display name as its
    title and the section's display name as its description; every
    category result carries the chained id of a section of the tree, has
    that section's display name as its title, its icon as its icon, and the
    caption of the related links as its description. *)
Theorem results_come_from_the_tree language searchTerms
    (linkSections : list (LinkSection Name)) :
  ∃ r,
    run_search language searchTerms linkSections = Some r
    ∧ (∀ result, result ∈ run_links r →
         ∃ p section link,
           get linkSections p = Some section
           ∧ link ∈ default [] (links section) ++ default [] (social section)
           ∧ data result = LinkData link
           ∧ title result = translated_or_empty language (link_name link)
           ∧ description result = translated_or_empty language (name section))
    ∧ (∀ result, result ∈ run_categories r →
         ∃ p section,
           get linkSections p = Some section
           ∧ data result = SectionId (chain_id linkSections p)
           ∧ title result = translated_or_empty language (name section)
           ∧ result_icon result = icon section
           ∧ description result = see_related_links (getTranslations language)).
Proof.
  destruct (run_search_spec language searchTerms linkSections) as (r & Hrun & Hinv).
  exists r. split_and!; [done | |].
  - intros result Hin.
    destruct (elem_of_run_links _ _ _ _ _ Hinv Hin) as (p & section & Hp & Hres).
    apply elem_of_emitted_links in Hres
      as (link & Hdata & Htitle & Hdesc & [[Hlink _]|[Hlink _]]);
      exists p, section, link; split_and!; try done;
      apply elem_of_app; first [by left | by right].
  - intros result Hin. rewrite (inv_categories _ _ _ _ _ _ _ _ Hinv) in Hin.
    apply list_elem_of_bind in Hin as (p & Hin & _).
    unfold categories_of in Hin.
    destruct (get linkSections p) as [section|] eqn:Hp;
      [|by apply elem_of_nil in Hin].
    simpl in Hin. unfold emitted_category in Hin. cbv zeta in Hin.
    destruct (name_matches _ _); [|by apply elem_of_nil in Hin].
    apply list_elem_of_singleton in Hin as ->. by exists p, section.
Qed.

Lemma social_icon_known (socialMedia : string) :
  DisplayUtils.getSocialMediaIconName socialMedia = "android-open"
  ∨ DisplayUtils.getSocialMediaIconName socialMedia
    ∈ (λ x, x.2.1) <$> DisplayUtils.known_platforms.
Proof.
  unfold DisplayUtils.getSocialMediaIconName. cbv zeta.
  repeat case_decide; (by left) || (right; set_solver).
Qed.

(** X4: every link result is drawn with an icon of the class 'ionicon': a
    result for an entry of [links] with 'md-open', a result for an entry of
    [social] with the icon the social-media helper gives for the entry's
    English name, which is the icon of one of the six known platforms or
    'android-open'. *)
Theorem link_results_have_known_icons language searchTerms
    (linkSections : list (LinkSection Name)) :
  ∃ r,
    run_search language searchTerms linkSections = Some r
    ∧ ∀ result, result ∈ run_links r →
        ∃ p section link iconName,
          get linkSections p = Some section
          ∧ data result = LinkData link
          ∧ result_icon result
            = Some {| icon_name := iconName; icon_class := "ionicon" |}
          ∧ ((link ∈ default [] (links section) ∧ iconName = "md-open")
             ∨ (link ∈ default [] (social section)
                ∧ iconName
                  = DisplayUtils.getSocialMediaIconName
                      (default "" (getEnglishName (link_name link)))
                ∧ (iconName = "android-open"
                   ∨ iconName ∈ (λ x, x.2.1) <$> DisplayUtils.known_platforms))).
Proof.
  destruct (run_search_spec language searchTerms linkSections) as (r & Hrun & Hinv).
  exists r. split; [done|]. intros result Hin.
  destruct (elem_of_run_links _ _ _ _ _ Hinv Hin) as (p & section & Hp & Hres).
  apply elem_of_emitted_links in Hres
    as (link & Hdata & _ & _ & [[Hlink Hicon]|[Hlink Hicon]]).
  - exists p, section, link, "md-open". split_and!; try done. by left.
  - exists p, section, link,
      (DisplayUtils.getSocialMediaIconName
         (default "" (getEnglishName (link_name link)))).
    split_and!; try done. right. split_and!; [done | done |].
    apply social_icon_known.
Qed.

(** *** When nothing is found *)

Lemma concat_nil_iff {A} (l : list (list A)) :
  concat l = [] ↔ ∀ x, x ∈ l → x = [].
Proof.
  induction l as [|x l IH]; simpl.
  - split; [|done]. intros _ x Hx. by apply elem_of_nil in Hx.
  - rewrite app_nil, IH. split.
    + intros [-> H] y Hy. apply elem_of_cons in Hy as [->|Hy]; [done|by apply H].
    + intros H. split; [apply H; by left|]. intros y Hy. apply H. by right.
Qed.

Lemma filter_nil_iff {A} (P : A → Prop) `{!∀ x, Decision (P x)} (l : list A) :
  filter P l = [] ↔ ∀ x, x ∈ l → ¬ P x.
Proof.
  split.
  - intros Hnil x Hx HP. by eapply filter_nil_not_elem_of.
  - intros Hnone. induction l as [|x l IH]; [done|].
    rewrite filter_cons_False by (apply Hnone; by left).
    apply IH. intros y Hy. apply Hnone. by right.
Qed.

Lemma emitted_nothing_iff language searchTerms (i : string) s :
  emitted_links language searchTerms s = []
  ∧ emitted_category language searchTerms i s = []
  ↔ ¬ substring_of searchTerms
        (toUpperCase (translated_or_empty language (name s)))
    ∧ ∀ link, link ∈ default [] (links s) ++ default [] (social s) →
        ¬ substring_of searchTerms
            (toUpperCase (translated_or_empty language (link_name link))).
Proof.
  unfold emitted_links, emitted_category. cbv zeta.
  rewrite <- name_matches_substring.
  destruct (name_matches searchTerms (translated_or_empty language (name s))).
  - split; [by intros [_ ?] | by intros [? _]].
  - rewrite app_nil. split.
    + intros [[H1 H2] _]. split; [done|].
      apply fmap_nil_inv in H1, H2.
      intros link Hin. rewrite <- name_matches_substring.
      apply elem_of_app in Hin as [Hin|Hin].
      * by apply (proj1 (filter_nil_iff _ _) H1).
      * by apply (proj1 (filter_nil_iff _ _) H2).
    + intros [_ H]. split; [|done].
      split;
        match goal with |- _ <$> ?l = [] => assert (l = []) as -> end;
        try done; apply filter_nil_iff; intros link Hin;
        rewrite name_matches_substring; apply H, elem_of_app;
        first [by left | by right].
Qed.

(** X5: the search finds something exactly when something matches: both
    lists of results are empty if and only if the query occurs neither in
    the uppercased display name of a section of the tree nor in that of one
    of the links or social entries of a section. *)
Theorem no_results_iff_nothing_matches language searchTerms
    (linkSections : list (LinkSection Name)) :
  ∃ r,
    run_search language searchTerms linkSections = Some r
    ∧ (run_links r = [] ∧ run_categories r = []
       ↔ ∀ p section,
           get linkSections p = Some section →
           ¬ substring_of searchTerms
               (toUpperCase (translated_or_empty language (name section)))
           ∧ ∀ link,
               link ∈ default [] (links section) ++ default [] (social section) →
               ¬ substring_of searchTerms
                   (toUpperCase (translated_or_empty language (link_name link)))).
Proof.
  destruct (run_search_end language searchTerms linkSections)
    as (r & Hrun & Hinv & Hall & Hlinks & Hcats).
  exists r. split; [done|]. rewrite Hlinks, Hcats, !concat_nil_iff. split.
  - intros [H1 H2] p section Hp.
    assert (p ∈ run_sectionsToSearch r) as Hin by (apply Hall; by rewrite Hp).
    apply (emitted_nothing_iff _ _ (chain_id linkSections p)). split.
    + assert (links_of language searchTerms linkSections p = []) as Hnil
        by by apply H1, list_elem_of_fmap_2.
      unfold links_of in Hnil. by rewrite Hp in Hnil.
    + assert (categories_of language searchTerms linkSections p = []) as Hnil
        by by apply H2, list_elem_of_fmap_2.
      unfold categories_of in Hnil. by rewrite Hp in Hnil.
  - intros H. split; intros block Hblock;
      apply list_elem_of_fmap in Hblock as (p & -> & Hp);
      destruct (inv_valid _ _ _ _ _ _ _ _ Hinv p Hp) as [section Hsection];
      destruct (proj2 (emitted_nothing_iff language searchTerms
                         (chain_id linkSections p) section)
                  (H p section Hsection)) as [H1 H2].
    + unfold links_of. by rewrite Hsection.
    + unfold categories_of. by rewrite Hsection.
Qed.

End MoreSearchFacts.

(** ** getResults and getResultIcons *)

Section MoreGetResultsFacts.
Context {Name : Type} `{TU : !TranslationUtils Name} {Err : Type}.
Import JsString JsStringFacts JsObjectFacts.

Implicit Types (Config : Configuration Name Err) (language : Language).


(** X7: when the query is not empty and the configuration serves the tree,
    the promise resolves with an object whose keys are exactly the two
    labels, '__proto__' left out, also when nothing was found. *)
Theorem nonempty_query_resolves_both_labels Config language (rawQuery : string)
    (u : unit) (linkSections : list (LinkSection Name)) :
  rawQuery ≠ "" →
  config_init Config = inr u →
  config_getConfig Config "/useful_links.json" = inr linkSections →
  ∃ results,
    (getResults Config language (Some rawQuery)).2 = Resolved results
    ∧ (external_links (getTranslations language) ≠ "__proto__" →
       is_Some (results !! external_links (getTranslations language)))
    ∧ (useful_links (getTranslations language) ≠ "__proto__" →
       is_Some (results !! useful_links (getTranslations language)))
    ∧ dom results
      = {[ external_links (getTranslations language);
           useful_links (getTranslations language) ]} ∖ {[ "__proto__" ]}.
Proof.
  intros Hq Hinit Hget. rewrite getResults_nonempty by done.
  rewrite Hinit, Hget. unfold _getResults.
  destruct (run_search_spec language (toUpperCase rawQuery) linkSections)
    as (r & -> & _).
  eexists. split; [done|]. unfold build_results. cbv zeta. split_and!.
  - intros Hext.
    destruct (decide (useful_links (getTranslations language)
                      = external_links (getTranslations language))) as [Heq|Hne].
    + rewrite Heq, lookup_assign_eq by done. by eexists.
    + rewrite lookup_assign_ne, lookup_assign_eq by done. by eexists.
  - intros Huseful. rewrite lookup_assign_eq by done. by eexists.
  - rewrite !dom_assign, dom_empty_L. set_solver.
Qed.

(** X8: [getResultIcons] has an icon for every key of the result object
    and for nothing else, the keys being the two labels without
    '__proto__'.  The label of the external links, assigned last, gets
    'md-open'; the label of the useful links gets 'link' when it is another
    string.  With one and the same label, that key holds the category
    results in the result object but the icon of the external links in the
    table of icons, because the two functions assign in opposite orders. *)
Theorem every_group_has_an_icon language
    (links categories : list (SearchResult Name)) :
  dom (getResultIcons language) = dom (build_results language links categories)
  ∧ dom (getResultIcons language)
    = {[ external_links (getTranslations language);
         useful_links (getTranslations language) ]} ∖ {[ "__proto__" ]}
  ∧ (external_links (getTranslations language) ≠ "__proto__" →
     getResultIcons language !! external_links (getTranslations language)
     = Some {| group_icon := {| icon_name := "md-open"; icon_class := "ionicon" |} |})
  ∧ (external_links (getTranslations language)
       ≠ useful_links (getTranslations language) →
     useful_links (getTranslations language) ≠ "__proto__" →
     getResultIcons language !! useful_links (getTranslations language)
     = Some {| group_icon := {| icon_name := "link"; icon_class := "material" |} |})
  ∧ (external_links (getTranslations language)
       = useful_links (getTranslations language) →
     useful_links (getTranslations language) ≠ "__proto__" →
     build_results language links categories
       !! useful_links (getTranslations language) = Some categories
     ∧ getResultIcons language !! useful_links (getTranslations language)
       = Some {| group_icon := {| icon_name := "md-open"; icon_class := "ionicon" |} |}).
Proof.
  unfold getResultIcons, build_results. cbv zeta. split_and!.
  - rewrite !dom_assign, !dom_empty_L. set_solver.
  - rewrite !dom_assign, !dom_empty_L. set_solver.
  - intros Hext. by rewrite lookup_assign_eq.
  - intros Hne Huseful. by rewrite lookup_assign_ne, lookup_assign_eq.
  - intros -> Huseful. by rewrite !lookup_assign_eq.
Qed.

(** X9: the configuration is asked to initialise exactly when the query is
    neither null nor empty; the tree is requested, under the one name
    '/useful_links.json', exactly when moreover the initialisation
    succeeded; and an error is written to the console exactly when the
    promise is rejected, with the error it is rejected with. *)
Theorem configuration_calls_and_errors Config language (rawQuery : option string) :
  (InitCalled ∈ (getResults Config language rawQuery).1
   ↔ ∃ q, rawQuery = Some q ∧ q ≠ "")
  ∧ (∀ file,
       GetConfigCalled file ∈ (getResults Config language rawQuery).1
       ↔ file = "/useful_links.json"
         ∧ (∃ q, rawQuery = Some q ∧ q ≠ "")
         ∧ ∃ u, config_init Config = inr u)
  ∧ (∀ err,
       ConsoleError err ∈ (getResults Config language rawQuery).1
       ↔ (getResults Config language rawQuery).2 = Rejected err).
Proof.
  destruct rawQuery as [q|]; cycle 1.
  { simpl. setoid_rewrite elem_of_nil. naive_solver. }
  destruct (decide (q = "")) as [->|Hq].
  { simpl. setoid_rewrite elem_of_nil. naive_solver. }
  rewrite getResults_nonempty by done.
  destruct (config_init Config) as [e|u]; simpl.
  { repeat setoid_rewrite elem_of_cons. setoid_rewrite elem_of_nil.
    naive_solver. }
  destruct (config_getConfig Config "/useful_links.json") as [e|linkSections];
    simpl.
  { repeat setoid_rewrite elem_of_cons. setoid_rewrite elem_of_nil.
    naive_solver. }
  destruct (_getResults language (toUpperCase q) linkSections) as [[? results]|];
    simpl; repeat setoid_rewrite elem_of_cons; setoid_rewrite elem_of_nil;
    naive_solver.
Qed.

End MoreGetResultsFacts.

(** ** DisplayUtils.js: platform icons *)

Module PlatformIconsFacts.
Import PlatformIcons.

Lemma getIOSIcon_eq (obj : IconObject) :
  getIOSIcon obj
  = match ios obj ≫= entry_pair with
    | Some d => Some d
    | None => default_pair obj
    end.
Proof.
  unfold getIOSIcon, default_pair, entry_pair.
  destruct (ios obj) as [[[i|] [c|]]|]; done.
Qed.

Lemma getAndroidIcon_eq (obj : IconObject) :
  getAndroidIcon obj
  = match android obj ≫= entry_pair with
    | Some d => Some d
    | None => default_pair obj
    end.
Proof.
  unfold getAndroidIcon, default_pair, entry_pair.
  destruct (android obj) as [[[i|] [c|]]|]; done.
Qed.

(** X10: for the platforms 'ios' and 'android' an object that has both
    'icon' and 'iconClass' always gets an icon; the icon and the class of a
    result are always taken together from one place, the entry of the
    platform or the object itself, never one from each; and every other
    platform name, 'iOS' and 'Android' among them, gets null. *)
Theorem platform_icon_is_one_pair (platform : string) (obj : IconObject) :
  (is_Some (default_pair obj) →
   is_Some (getPlatformIcon "ios" obj) ∧ is_Some (getPlatformIcon "android" obj))
  ∧ (∀ d, getPlatformIcon platform obj = Some d →
          default_pair obj = Some d
          ∨ (platform = "ios" ∧ ios obj ≫= entry_pair = Some d)
          ∨ (platform = "android" ∧ android obj ≫= entry_pair = Some d))
  ∧ (platform ≠ "ios" → platform ≠ "android" →
     getPlatformIcon platform obj = None)
  ∧ getPlatformIcon "iOS" obj = None
  ∧ getPlatformIcon "Android" obj = None.
Proof.
  split_and!.
  - intros [d Hd]. unfold getPlatformIcon. simpl.
    rewrite getIOSIcon_eq, getAndroidIcon_eq, Hd.
    split; [destruct (ios obj ≫= entry_pair) | destruct (android obj ≫= entry_pair)];
      by eexists.
  - intros d. unfold getPlatformIcon. repeat case_decide; [| |done].
    + rewrite getIOSIcon_eq.
      destruct (ios obj ≫= entry_pair) eqn:He; intros Hd;
        [right; left; by simplify_eq | by left].
    + rewrite getAndroidIcon_eq.
      destruct (android obj ≫= entry_pair) eqn:He; intros Hd;
        [right; right; by simplify_eq | by left].
  - intros H1 H2. unfold getPlatformIcon. by rewrite !decide_False.
  - done.
  - done.
Qed.

(** X11: the icon for iOS does not depend on what the object holds for
    Android, and the other way round; an entry of a platform that has both
    keys is preferred to the pair of the object itself; and an entry that
    lacks one of the two keys counts for nothing, so that an object without
    a full entry for either platform gets the same icon on both. *)
Theorem platform_entries_are_independent (obj : IconObject) :
  (∀ a, getPlatformIcon "ios"
          {| ios := ios obj; android := a;
             obj_icon := obj_icon obj; obj_iconClass := obj_iconClass obj |}
        = getPlatformIcon "ios" obj)
  ∧ (∀ a, getPlatformIcon "android"
            {| ios := a; android := android obj;
               obj_icon := obj_icon obj; obj_iconClass := obj_iconClass obj |}
          = getPlatformIcon "android" obj)
  ∧ (∀ d, ios obj ≫= entry_pair = Some d → getPlatformIcon "ios" obj = Some d)
  ∧ (∀ d, android obj ≫= entry_pair = Some d →
          getPlatformIcon "android" obj = Some d)
  ∧ (ios obj ≫= entry_pair = None → android obj ≫= entry_pair = None →
     getPlatformIcon "ios" obj = getPlatformIcon "android" obj).
Proof.
  unfold getPlatformIcon. simpl. rewrite getIOSIcon_eq, getAndroidIcon_eq.
  split_and!.
  - intros a. by rewrite getIOSIcon_eq.
  - intros a. by rewrite getAndroidIcon_eq.
  - by intros d ->.
  - by intros d ->.
  - by intros -> ->.
Qed.

End PlatformIconsFacts.

(** ** SplashScreen.js *)

Module SplashScreenFacts.
Import SplashScreen.

Section Component.
Context {Value Err University Semesters : Type}.
Variable semesters : University → Semesters.

Implicit Types (Prefs : Preferences Value Err).
Implicit Types (Config : Configuration Err University).

Lemma pushes_checkConfiguration Config :
  pushes (_checkConfiguration (Value := Value) semesters Config)
  = match init Config, getConfig Config "/university.json" with
    | inr _, inr _ => ["main"]
    | _, _ => ["update"]
    end.
Proof.
  unfold _checkConfiguration.
  destruct (init Config); [done|].
  by destruct (getConfig Config "/university.json").
Qed.

(** X12: the order in which [_loadPreferences] asks for the preferences
    is the order in which [updatePreferences] reads them: when all six
    load, the first thing the component does is to dispatch an update in
    which each preference is the value its own getter resolved with. *)
Theorem preferences_reach_their_fields Prefs Config
    (timesAppOpened language currentSemester prefersWheelchair
       alwaysSearchAll preferredTimeFormat : Value) :
  getTimesAppOpened Prefs = inr timesAppOpened →
  getSelectedLanguage Prefs = inr language →
  getCurrentSemester Prefs = inr currentSemester →
  getPrefersWheelchair Prefs = inr prefersWheelchair →
  getAlwaysSearchAll Prefs = inr alwaysSearchAll →
  getPreferredTimeFormat Prefs = inr preferredTimeFormat →
  componentDidMount semesters Prefs Config
  = Dispatched
      (PreferencesUpdate (Some timesAppOpened) (Some language)
         (Some currentSemester) (Some prefersWheelchair)
         (Some alwaysSearchAll) (Some preferredTimeFormat))
    :: _checkConfiguration semesters Config.
Proof.
  intros H0 H1 H2 H3 H4 H5.
  unfold componentDidMount, _loadPreferences.
  by rewrite H0, H1, H2, H3, H4, H5.
Qed.

(** X13: after mounting, the component leaves the splash screen exactly
    when all six preferences load, and then exactly once: to 'main' when
    the configuration initialises and serves '/university.json', after the
    semesters of the university are dispatched, and to 'update' otherwise.
    When a preference does not load, the component writes the error and
    does nothing else: no update is dispatched, the configuration is not
    called and the navigator is not used. *)
Theorem mounting_navigates_once Prefs Config :
  match
    Promise_all
      [ getTimesAppOpened Prefs; getSelectedLanguage Prefs;
        getCurrentSemester Prefs; getPrefersWheelchair Prefs;
        getAlwaysSearchAll Prefs; getPreferredTimeFormat Prefs ]
  with
  | Some values =>
      length values = 6
      ∧ pushes (componentDidMount semesters Prefs Config)
        = match init Config, getConfig Config "/university.json" with
          | inr _, inr _ => ["main"]
          | _, _ => ["update"]
          end
      ∧ (∀ u university,
           init Config = inr u →
           getConfig Config "/university.json" = inr university →
           ∃ before,
             componentDidMount semesters Prefs Config
             = before ++ [Dispatched (SemestersUpdate (semesters university));
                          NavigatorPush "main"])
  | None =>
      (∃ e, inl e ∈ [ getTimesAppOpened Prefs; getSelectedLanguage Prefs;
                      getCurrentSemester Prefs; getPrefersWheelchair Prefs;
                      getAlwaysSearchAll Prefs; getPreferredTimeFormat Prefs ])
      ∧ componentDidMount semesters Prefs Config
        = [ConsoleError "Unable to load initial preferences"]
  end.
Proof.
  unfold componentDidMount, _loadPreferences.
  destruct (getTimesAppOpened Prefs) as [e0|v0];
    [simpl; split; [exists e0; apply list_elem_of_here | done]|].
  destruct (getSelectedLanguage Prefs) as [e1|v1];
    [simpl; split; [exists e1; do 1 apply list_elem_of_further; apply list_elem_of_here | done]|].
  destruct (getCurrentSemester Prefs) as [e2|v2];
    [simpl; split; [exists e2; do 2 apply list_elem_of_further; apply list_elem_of_here | done]|].
  destruct (getPrefersWheelchair Prefs) as [e3|v3];
    [simpl; split; [exists e3; do 3 apply list_elem_of_further; apply list_elem_of_here | done]|].
  destruct (getAlwaysSearchAll Prefs) as [e4|v4];
    [simpl; split; [exists e4; do 4 apply list_elem_of_further; apply list_elem_of_here | done]|].
  destruct (getPreferredTimeFormat Prefs) as [e5|v5];
    [simpl; split; [exists e5; do 5 apply list_elem_of_further; apply list_elem_of_here | done]|].
  simpl. split_and!; [done | |].
  - apply pushes_checkConfiguration.
  - intros u university Hinit Hget. unfold _checkConfiguration.
    rewrite Hinit, Hget. simpl.
    by eexists [_; _; _].
Qed.

End Component.
End SplashScreenFacts.

(** ** BuildingGrid.js *)

Module BuildingGridFacts.
Import BuildingGrid.
Local Open Scope Z_scope.

Lemma rem_3 (k j : Z) : 0 ≤ k → 0 ≤ j < 3 → Z.rem (3 * k + j) 3 = j.
Proof.
  intros Hk Hj. rewrite Z.rem_mod_nonneg by lia.
  symmetry. apply (Z.mod_unique_pos _ _ k). all: lia.
Qed.

Lemma marginTop_renderRow (rowVal : Z) :
  marginTop (_renderRow rowVal) = (if rowVal <? 3 then 10 else 0)
  ∧ marginBottom (_renderRow rowVal) = 15.
Proof.
  unfold _renderRow.
  by destruct (Z.rem rowVal 3 =? 0), (Z.rem rowVal 3 =? 2).
Qed.

(** X14: the cells of a row of the grid are evenly spaced: in the row of
    the cells 3k, 3k+1 and 3k+2 the margin to the left of the first cell,
    the two gaps between neighbours and the margin to the right of the last
    cell are all 10; the three cells have the same margin on top, which is
    10 in the first row and 0 in every other, and 15 below. *)
Theorem row_of_the_grid_is_evenly_spaced (k : Z) :
  0 ≤ k →
  marginLeft (_renderRow (3 * k)) = 10
  ∧ marginRight (_renderRow (3 * k)) + marginLeft (_renderRow (3 * k + 1)) = 10
  ∧ marginRight (_renderRow (3 * k + 1)) + marginLeft (_renderRow (3 * k + 2)) = 10
  ∧ marginRight (_renderRow (3 * k + 2)) = 10
  ∧ (∀ j, 0 ≤ j < 3 →
          marginTop (_renderRow (3 * k + j)) = (if decide (k = 0) then 10 else 0)
          ∧ marginBottom (_renderRow (3 * k + j)) = 15).
Proof.
  intros Hk.
  pose proof (rem_3 k 0 Hk) as H0. rewrite Z.add_0_r in H0.
  pose proof (rem_3 k 1 Hk) as H1. pose proof (rem_3 k 2 Hk) as H2.
  split_and!.
  1-4: unfold _renderRow; rewrite ?H0, ?H1, ?H2 by lia; done.
  intros j Hj. destruct (marginTop_renderRow (3 * k + j)) as [-> ->].
  split; [|done].
  case_decide; destruct (Z.ltb_spec (3 * k + j) 3); lia.
Qed.

End BuildingGridFacts.

(** ** The further properties on the samples *)

Module MoreSampleFacts.
Import JsString Sample.


(** A query that finds nothing on [events] still resolves with both
    labels. *)
Lemma nonempty_query_resolves_both_labels_witness :
  "zzz" ≠ ""
  ∧ config_init config = inr ()
  ∧ config_getConfig config "/useful_links.json" = inr events
  ∧ ∃ results,
      (getResults config en (Some "zzz")).2 = Resolved results
      ∧ is_Some (results !! "External links")
      ∧ is_Some (results !! "Useful links")
      ∧ dom results = {[ "External links"; "Useful links" ]}.
Proof.
  split; [done|]. split; [done|]. split; [done|].
  destruct (nonempty_query_resolves_both_labels config en "zzz" () events)
    as (results & Hres & Hext & Huseful & Hdom); [done..|].
  exists results. split_and!; [done | by apply Hext | by apply Huseful |].
  rewrite Hdom. simpl. set_solver.
Defined.

(** With the table [colliding] the one label holds the category results
    and the icon of the external links. *)
Lemma every_group_has_an_icon_witness :
  build_results (TU := colliding) en [] [] !! "Links" = Some []
  ∧ getResultIcons (TU := colliding) en !! "Links"
    = Some {| group_icon := {| icon_name := "md-open"; icon_class := "ionicon" |} |}.
Proof.
  destruct (every_group_has_an_icon (TU := colliding) en [] [])
    as (_ & _ & _ & _ & Hsame).
  by apply Hsame.
Defined.

(** The six preferences of [SplashScreen.loaded] land in their fields. *)
Lemma preferences_reach_their_fields_witness :
  SplashScreen.getTimesAppOpened SplashScreen.loaded = inr 10
  ∧ SplashScreen.getSelectedLanguage SplashScreen.loaded = inr 11
  ∧ SplashScreen.getCurrentSemester SplashScreen.loaded = inr 12
  ∧ SplashScreen.getPrefersWheelchair SplashScreen.loaded = inr 13
  ∧ SplashScreen.getAlwaysSearchAll SplashScreen.loaded = inr 14
  ∧ SplashScreen.getPreferredTimeFormat SplashScreen.loaded = inr 15
  ∧ SplashScreen.componentDidMount length SplashScreen.loaded SplashScreen.available
    = SplashScreen.Dispatched
        (SplashScreen.PreferencesUpdate (Some 10) (Some 11) (Some 12)
           (Some 13) (Some 14) (Some 15))
      :: SplashScreen._checkConfiguration length SplashScreen.available.
Proof.
  do 6 (split; [done|]).
  by apply (SplashScreenFacts.preferences_reach_their_fields length
              SplashScreen.loaded SplashScreen.available 10 11 12 13 14 15).
Defined.

(** The third row of the grid. *)
Lemma row_of_the_grid_is_evenly_spaced_witness :
  (0 ≤ 2)%Z
  ∧ BuildingGrid.marginLeft (BuildingGrid._renderRow 6) = 10%Z
  ∧ BuildingGrid.marginRight (BuildingGrid._renderRow 8) = 10%Z.
Proof.
  assert (0 ≤ 2)%Z as H by done.
  split; [done|].
  destruct (BuildingGridFacts.row_of_the_grid_is_evenly_spaced 2 H)
    as (Hleft & _ & _ & Hright & _).
  by split.
Defined.

(** Mounting with [SplashScreen.broken] only writes the error; mounting
    with [SplashScreen.loaded] goes to 'main'. *)
Example mounting_with_a_broken_preference :
  SplashScreen.componentDidMount length SplashScreen.broken SplashScreen.available
  = [SplashScreen.ConsoleError "Unable to load initial preferences"].
Proof. reflexivity. Qed.

Example mounting_with_all_preferences :
  SplashScreen.pushes
    (SplashScreen.componentDidMount length SplashScreen.loaded SplashScreen.available)
  = ["main"].
Proof. reflexivity. Qed.

(** The icons of [PlatformIcons.sample]: the entry for iOS lacks a class and
    is passed over, the entry for Android is used. *)
Example sample_platform_icons :
  PlatformIcons.getPlatformIcon "ios" PlatformIcons.sample
  = Some {| PlatformIcons.icon := "a"; PlatformIcons.iconClass := "x" |}
  ∧ PlatformIcons.getPlatformIcon "android" PlatformIcons.sample
    = Some {| PlatformIcons.icon := "c"; PlatformIcons.iconClass := "z" |}
  ∧ PlatformIcons.getPlatformIcon "windows" PlatformIcons.sample = None.
Proof. done. Qed.

End MoreSampleFacts.
